(** * Heaviest-branch tip selector (package [mselection])

    A shallow embedding of [HeaviestSelector] and of the types it works on.
    Go pointers are addresses into an explicit store, so that the records
    shared by the tracked map, the tip list and the working list of a
    selection are shared in the model as well. *)

From stdpp Require Import gmap strings list fin_maps sorting.

Set Warnings "-clear-no-such-hyp".

Local Open Scope Z_scope.

(** ** Data model *)

(** [hornet.MessageID.MapKey()] is the string form of a message ID; the
    selector uses message IDs as map keys only. *)
Abbreviation MID := string.

(** Address of a [trackedMessage] in the store. *)
Abbreviation ptr := nat.

(** Modelled from the spec: [github.com/willf/bitset] is an external
    package.  A bitset is the finite set of its set bit positions;
    [Count] is the population count, [InPlaceUnion] and
    [InPlaceDifference] act on the receiver, and the length grows as
    required (bits beyond the length read as zero). *)
Module bitset.
Definition New (length : nat) : gset nat := ∅.
Definition Set_ (i : nat) (b : gset nat) : gset nat := {[ i ]} ∪ b.
Definition InPlaceUnion (b compare : gset nat) : gset nat := b ∪ compare.
Definition InPlaceDifference (b compare : gset nat) : gset nat := b ∖ compare.
Definition Count (b : gset nat) : Z := Z.of_nat (size b).
End bitset.

(** [container/list]: a [*list.Element] is created by [PushBack] once per
    tracked message (line 264) and carries that message as its [Value], so
    an element handle is represented by the address it carries and a
    [list.List] by the sequence of its elements, front to back. *)
Module list_.
Definition New : list nat := [].
Definition PushBack (v : ptr) (l : list nat) : nat * list nat := (v, l ++ [v]).
Definition Remove (e : nat) (l : list nat) : list nat :=
    filter (λ e', e' ≠ e) l.
End list_.

(** [refs] is a [*bitset.BitSet] that is allocated together with its record
    and never assigned again, so the bitset is kept in the record: an
    in-place operation on it is an update of the record in the store. *)
Record trackedMessage := {
  messageID : MID;              (* message ID of the corresponding message *)
  tip : option nat;             (* pointer to the element in the tip list *)
  refs : gset nat               (* BitSet of all the referenced messages *)
}.

Global Instance trackedMessage_inhabited : Inhabited trackedMessage :=
  populate {| messageID := ""; tip := None; refs := ∅ |}.

(** The store: address [p] holds the record [h !! p]. Records are only ever
    allocated (at the end) and updated in place. *)
Abbreviation Store := (list trackedMessage).

Definition deref (h : Store) (p : ptr) : trackedMessage := h !!! p.

Definition set_refs (b : gset nat) (t : trackedMessage) : trackedMessage :=
  {| messageID := messageID t; tip := tip t; refs := b |}.
Definition set_tip (e : option nat) (t : trackedMessage) : trackedMessage :=
  {| messageID := messageID t; tip := e; refs := refs t |}.

Record HeaviestSelector := {
  minHeaviestBranchUnreferencedMessagesThreshold : Z;
  maxHeaviestBranchTipsPerCheckpoint : Z;
  randomTipsPerCheckpoint : Z;
  heaviestBranchSelectionDeadline : Z;
  trackedMessages : gmap string ptr;   (* map of all tracked messages *)
  tips : list nat                      (* list of available tips *)
}.

Definition with_state (s : HeaviestSelector)
    (tm : gmap string ptr) (tl : list nat) : HeaviestSelector :=
  {| minHeaviestBranchUnreferencedMessagesThreshold :=
       minHeaviestBranchUnreferencedMessagesThreshold s;
     maxHeaviestBranchTipsPerCheckpoint := maxHeaviestBranchTipsPerCheckpoint s;
     randomTipsPerCheckpoint := randomTipsPerCheckpoint s;
     heaviestBranchSelectionDeadline := heaviestBranchSelectionDeadline s;
     trackedMessages := tm;
     tips := tl |}.

(** [tangle.MessageMetadata], as far as the selector reads it. *)
Record MessageMetadata := {
  GetMessageID : MID;
  GetParent1MessageID : MID;
  GetParent2MessageID : MID
}.

Inductive error := ErrNoTipsAvailable.

(** Go's [int] and [uint] are 64 bits wide; [uint(x)] of an [int] wraps. *)
Definition uint (x : Z) : Z := x mod 2 ^ 64.
Definition is_int (x : Z) : Prop := - 2 ^ 63 <= x < 2 ^ 63.

(** ** Sources of nondeterminism

    A selection iterates over Go maps (in an unspecified order), draws
    random numbers and polls a deadline. One [Choice] is consumed by each
    loop iteration of [SelectTips]. *)
Record Choice := {
  rangeSelect : list nat;     (* order of the [range] in selectTip / randomTip *)
  rangeReference : list nat;  (* order of the [range] in referenceTip *)
  randomDraw : Z;             (* raw value behind utils.RandomInsecure *)
  ctxDone : bool              (* is [ctx.Done()] ready at this poll *)
}.

Abbreviation Oracle := (nat → Choice).

Definition later (n : nat) (ρ : nat → Choice) : nat → Choice := λ i, ρ (n + i)%nat.

(** Modelled from the spec: [utils.RandomInsecure] is not part of the
    sources at hand; it returns a pseudo-random int between [min] and [max],
    both included. *)
Definition RandomInsecure (raw : Z) (min max : Z) : Z :=
  raw mod (max + 1 - min) + min.

(** Insert [x] before position [k] of [l]. *)
Definition insert_at {A} (k : nat) (x : A) (l : list A) : list A :=
  take k l ++ x :: drop k l.

(** [shuffle ks l] is a rearrangement of [l] steered by [ks]; every
    rearrangement is reached by some [ks] (lemma [shuffle_complete]). *)
Fixpoint shuffle {A} (ks : list nat) (l : list A) : list A :=
  match l with
  | [] => []
  | x :: l' =>
      let r := shuffle (tail ks) l' in
      insert_at (hd 0%nat ks `mod` S (length r)) x r
  end.

(** [for _, tip := range m]: the values of [m], in the order chosen. *)
Definition range (ks : list nat) (m : gmap string ptr) : list nat :=
  shuffle ks (map_to_list m).*2.

(** ** The working list of a selection *)

Record trackedMessagesList := { msgs : gmap string ptr }.

Definition Len (il : trackedMessagesList) : Z := Z.of_nat (size (msgs il)).

Fixpoint randomTip_loop (randomMsgIndex : Z) (l : list nat) : error + ptr :=
  match l with
  | [] => inl ErrNoTipsAvailable
  | tip :: l' =>
      let randomMsgIndex := randomMsgIndex - 1 in
      if randomMsgIndex <? 0 then inr tip else randomTip_loop randomMsgIndex l'
  end.

(** randomTip selects a random tip item from the trackedMessagesList. *)
Definition randomTip (c : Choice) (il : trackedMessagesList) : error + ptr :=
  if Len il =? 0 then inl ErrNoTipsAvailable
  else
    let randomMsgIndex := RandomInsecure (randomDraw c) 0 (Len il - 1) in
    randomTip_loop randomMsgIndex (range (rangeSelect c) (msgs il)).

(** removeTip removes the tip from the map. *)
Definition removeTip_list (h : Store) (tip : ptr) (il : trackedMessagesList)
    : trackedMessagesList :=
  {| msgs := delete (messageID (deref h tip)) (msgs il) |}.

(** [otherTip.refs.InPlaceDifference(tip.refs)], on the store. *)
Definition difference_step (tip : ptr) (h : Store) (otherTip : ptr) : Store :=
  <[ otherTip :=
       set_refs (bitset.InPlaceDifference (refs (deref h otherTip))
                                          (refs (deref h tip)))
                (deref h otherTip) ]> h.

(** referenceTip removes the tip and sets all bits of all referenced
    messages of the tip in all existing tips to zero. *)
Definition referenceTip (c : Choice) (tip : ptr)
    (h : Store) (il : trackedMessagesList) : Store * trackedMessagesList :=
  let il' := removeTip_list h tip il in
  (foldl (difference_step tip) h (range (rangeReference c) (msgs il')), il').

(** ** Selection *)

(** The running best of the scan in [selectTip]. *)
Record best := { best_tips : list nat; best_count : Z }.

Definition selectTip_scan (h : Store) (b : best) (tip : ptr) : best :=
  let c := bitset.Count (refs (deref h tip)) in
  if b.(best_count) <? c then
    (* tip with heavier branch found *)
    {| best_tips := [tip]; best_count := c |}
  else if c =? b.(best_count) then
    (* add the tip to the slice of currently best tips *)
    {| best_tips := b.(best_tips) ++ [tip]; best_count := b.(best_count) |}
  else b.

(** selectTip selects a tip to be used for the next checkpoint. It returns
    a tip confirming the most messages, and the amount of referenced
    messages of this tip that were not referenced by previously chosen
    tips. *)
Definition selectTip (c : Choice) (h : Store) (tipsList : trackedMessagesList)
    : error + (ptr * Z) :=
  if Len tipsList =? 0 then inl ErrNoTipsAvailable
  else
    let b := foldl (selectTip_scan h) {| best_tips := []; best_count := 0 |}
                   (range (rangeSelect c) (msgs tipsList)) in
    match b.(best_tips) with
    | [] => inl ErrNoTipsAvailable
    | t0 :: _ =>
        let i := RandomInsecure (randomDraw c) 0
                   (Z.of_nat (length b.(best_tips)) - 1) in
        inr (nth (Z.to_nat i) b.(best_tips) t0, b.(best_count))
    end.

(** tipsToList returns a new list containing the current tips. *)
Definition tipsToList (h : Store) (s : HeaviestSelector) : trackedMessagesList :=
  {| msgs := foldl (λ result tip, <[ messageID (deref h tip) := tip ]> result)
                   ∅ (tips s) |}.

(** reset resets the tracked messages map and tips list of s. *)
Definition reset (s : HeaviestSelector) : HeaviestSelector :=
  with_state s ∅ list_.New.

(** New creates a new HeaviestSelector instance. *)
Definition New (minHeaviestBranchUnreferencedMessagesThreshold
                maxHeaviestBranchTipsPerCheckpoint
                randomTipsPerCheckpoint
                heaviestBranchSelectionDeadline : Z) : HeaviestSelector :=
  reset {| minHeaviestBranchUnreferencedMessagesThreshold :=
             minHeaviestBranchUnreferencedMessagesThreshold;
           maxHeaviestBranchTipsPerCheckpoint := maxHeaviestBranchTipsPerCheckpoint;
           randomTipsPerCheckpoint := randomTipsPerCheckpoint;
           heaviestBranchSelectionDeadline := heaviestBranchSelectionDeadline;
           trackedMessages := ∅;
           tips := [] |}.

(** The variables of [SelectTips] that its loops read and write. *)
Record Work := {
  w_store : Store;
  w_list : trackedMessagesList;   (* tipsList *)
  w_tips : list MID;              (* tips, the output so far *)
  w_deadline : bool               (* deadlineExceeded *)
}.

Inductive flow := Break | Continue.

(** One pass through the body of the heaviest loop (lines 189-208). *)
Definition heaviest_body (s : HeaviestSelector) (minRequiredTips : Z)
    (c : Choice) (w : Work) : flow * Work :=
  let deadlineExceeded := w.(w_deadline) || ctxDone c in
  match selectTip c w.(w_store) w.(w_list) with
  | inl _ =>
      (Break, {| w_store := w.(w_store); w_list := w.(w_list);
                 w_tips := w.(w_tips); w_deadline := deadlineExceeded |})
  | inr (tip, count) =>
      if (minRequiredTips <? Z.of_nat (length w.(w_tips)))
         && ((count <? uint s.(minHeaviestBranchUnreferencedMessagesThreshold))
             || deadlineExceeded)
      then
        (Break, {| w_store := w.(w_store); w_list := w.(w_list);
                   w_tips := w.(w_tips); w_deadline := deadlineExceeded |})
      else
        let '(h', il') := referenceTip c tip w.(w_store) w.(w_list) in
        (Continue, {| w_store := h'; w_list := il';
                      w_tips := w.(w_tips) ++ [messageID (deref h' tip)];
                      w_deadline := deadlineExceeded |})
  end.

(** [for i := 0; i < n; i++ { body }], with [n] passes left. *)
Fixpoint heaviest_loop (s : HeaviestSelector) (minRequiredTips : Z)
    (n : nat) (ρ : nat → Choice) (w : Work) : Work :=
  match n with
  | O => w
  | S n' =>
      match heaviest_body s minRequiredTips (ρ 0%nat) w with
      | (Break, w') => w'
      | (Continue, w') => heaviest_loop s minRequiredTips n' (later 1 ρ) w'
      end
  end.

(** One pass through the body of the random loop (lines 217-223). *)
Definition random_body (c : Choice) (w : Work) : flow * Work :=
  match randomTip c w.(w_list) with
  | inl _ => (Break, w)
  | inr item =>
      let '(h', il') := referenceTip c item w.(w_store) w.(w_list) in
      (Continue, {| w_store := h'; w_list := il';
                    w_tips := w.(w_tips) ++ [messageID (deref h' item)];
                    w_deadline := w.(w_deadline) |})
  end.

Fixpoint random_loop (n : nat) (ρ : nat → Choice) (w : Work) : Work :=
  match n with
  | O => w
  | S n' =>
      match random_body (ρ 0%nat) w with
      | (Break, w') => w'
      | (Continue, w') => random_loop n' (later 1 ρ) w'
      end
  end.

(** The working state at line 180, and after the heaviest loop. *)
Definition select_start (h : Store) (s : HeaviestSelector) : Work :=
  {| w_store := h; w_list := tipsToList h s; w_tips := []; w_deadline := false |}.

Definition select_heaviest (ρ : nat → Choice) (minRequiredTips : Z)
    (h : Store) (s : HeaviestSelector) : Work :=
  heaviest_loop s minRequiredTips
    (Z.to_nat s.(maxHeaviestBranchTipsPerCheckpoint)) ρ (select_start h s).

(** The working state at line 226, just before the reset. *)
Definition select_random (ρ : nat → Choice) (minRequiredTips : Z)
    (h : Store) (s : HeaviestSelector) : Work :=
  random_loop (Z.to_nat s.(randomTipsPerCheckpoint))
    (later (Z.to_nat s.(maxHeaviestBranchTipsPerCheckpoint)) ρ)
    (select_heaviest ρ minRequiredTips h s).

(** SelectTips tries to collect tips that confirm the most recent messages
    since the last reset of the selector. *)
Definition SelectTips (ρ : nat → Choice) (minRequiredTips : Z)
    (h : Store) (s : HeaviestSelector)
    : (error + list MID) * (Store * HeaviestSelector) :=
  let tipsList := tipsToList h s in
  (* tips could be empty after a reset *)
  if Len tipsList =? 0 then (inl ErrNoTipsAvailable, (h, s))
  else
    let w := select_heaviest ρ minRequiredTips h s in
    if Z.of_nat (length w.(w_tips)) =? 0 then
      (inl ErrNoTipsAvailable, (w.(w_store), s))
    else
      (* also pick random tips if at least one heaviest branch tip was found *)
      let w' := select_random ρ minRequiredTips h s in
      (* reset the whole HeaviestSelector if valid tips were found *)
      (inr w'.(w_tips), (w'.(w_store), reset s)).

(** ** Ingest *)

(** GetTrackedMessagesCount returns the amount of known messages. *)
Definition GetTrackedMessagesCount (s : HeaviestSelector) : Z :=
  Z.of_nat (size s.(trackedMessages)).

(** removeTip removes the tip item from s. *)
Definition removeTip (it : option ptr) (h : Store) (s : HeaviestSelector)
    : Store * HeaviestSelector :=
  match it with
  | None => (h, s)
  | Some p =>
      match tip (deref h p) with
      | None => (h, s)
      | Some e =>
          (<[ p := set_tip None (deref h p) ]> h,
           with_state s s.(trackedMessages) (list_.Remove e s.(tips)))
      end
  end.

(** OnNewSolidMessage adds a new message to be processed by s. The result
    parameter [trackedMessagesCount] is named: the bare [return] of the
    duplicate filter yields its zero value. *)
Definition OnNewSolidMessage (msgMeta : MessageMetadata)
    (h : Store) (s : HeaviestSelector) : Z * (Store * HeaviestSelector) :=
  let trackedMessagesCount := 0 in
  (* filter duplicate messages *)
  match s.(trackedMessages) !! GetMessageID msgMeta with
  | Some _ => (trackedMessagesCount, (h, s))
  | None =>
      let parent1Item := s.(trackedMessages) !! GetParent1MessageID msgMeta in
      let parent2Item := s.(trackedMessages) !! GetParent2MessageID msgMeta in
      (* compute the referenced messages *)
      let idx := size s.(trackedMessages) in
      let r0 := bitset.Set_ idx (bitset.New (idx + 1)) in
      let r1 := match parent1Item with
                | Some p => bitset.InPlaceUnion r0 (refs (deref h p))
                | None => r0
                end in
      let r2 := match parent2Item with
                | Some p => bitset.InPlaceUnion r1 (refs (deref h p))
                | None => r1
                end in
      let it := length h in
      let h := h ++ [{| messageID := GetMessageID msgMeta; tip := None; refs := r2 |}] in
      let s := with_state s (<[ GetMessageID msgMeta := it ]> s.(trackedMessages))
                            s.(tips) in
      (* update tips *)
      let '(h, s) := removeTip parent1Item h s in
      let '(h, s) := removeTip parent2Item h s in
      let '(e, l) := list_.PushBack it s.(tips) in
      let h := <[ it := set_tip (Some e) (deref h it) ]> h in
      let s := with_state s s.(trackedMessages) l in
      (GetTrackedMessagesCount s, (h, s))
  end.

(** The state after a sequence of ingest calls. *)
Definition ingest_all (l : list MessageMetadata) (h : Store) (s : HeaviestSelector)
    : Store * HeaviestSelector :=
  foldl (λ σ m, (OnNewSolidMessage m σ.1 σ.2).2) (h, s) l.

Local Close Scope Z_scope.

(** * Notions used in the statements *)

(** ** Stores *)

(** What an in-place bitset operation may change in the store: nothing but
    the bits of existing records, and those only by clearing. *)
Record thinned (h h' : list trackedMessage) : Prop := {
  thinned_length : length h' = length h;
  thinned_id : ∀ p, messageID (deref h' p) = messageID (deref h p);
  thinned_tip : ∀ p, tip (deref h' p) = tip (deref h p);
  thinned_refs : ∀ p, refs (deref h' p) ⊆ refs (deref h p)
}.

(** The weight [selectTip] gives to a record. *)
Definition weight (h : list trackedMessage) (p : nat) : Z :=
  bitset.Count (refs (deref h p)).

(** Every entry of a working list is filed under its own message ID. *)
Definition keyed (h : list trackedMessage) (m : gmap string nat) : Prop :=
  ∀ k p, m !! k = Some p → messageID (deref h p) = k.

(** ** The working state of a selection *)

(** The working state after committing to the tip [t]. *)
Definition pick (c : Choice) (t : nat) (d : bool) (w : Work) : Work :=
  {| w_store := (referenceTip c t (w_store w) (w_list w)).1;
     w_list := (referenceTip c t (w_store w) (w_list w)).2;
     w_tips := w_tips w ++ [messageID (deref (referenceTip c t (w_store w) (w_list w)).1 t)];
     w_deadline := d |}.

(** The working state after a pass that picked nothing. *)
Definition stall (d : bool) (w : Work) : Work :=
  {| w_store := w_store w; w_list := w_list w; w_tips := w_tips w; w_deadline := d |}.

(** The early-stop test of line 201. *)
Definition early_stop (s : HeaviestSelector) (minRequiredTips : Z)
    (w : Work) (count : Z) (deadlineExceeded : bool) : bool :=
  (minRequiredTips <? Z.of_nat (length (w_tips w)))%Z
  && ((count <? uint (minHeaviestBranchUnreferencedMessagesThreshold s))%Z
      || deadlineExceeded).

(** What holds of the working state throughout a selection that started
    from the store [h0] and the snapshot [W0]. *)
Record work_inv (h0 : list trackedMessage) (W0 : gmap string nat) (w : Work) : Prop := {
  wi_thinned : thinned h0 (w_store w);
  wi_keyed : keyed h0 (msgs (w_list w));
  wi_sub : ∀ k p, msgs (w_list w) !! k = Some p → W0 !! k = Some p;
  wi_nodup : NoDup (w_tips w);
  wi_out : ∀ m, m ∈ w_tips w → is_Some (W0 !! m) ∧ msgs (w_list w) !! m = None;
  wi_frame : ∀ p, (∀ k, W0 !! k ≠ Some p) → deref (w_store w) p = deref h0 p
}.

(** The message IDs of the tips of a selector. *)
Definition tip_ids (h : list trackedMessage) (s : HeaviestSelector) : list string :=
  (λ p, messageID (deref h p)) <$> tips s.

(** The working state at the start of pass [i] of the heaviest loop, if the
    loop gets that far. *)
Fixpoint heaviest_at (s : HeaviestSelector) (minRequiredTips : Z)
    (i : nat) (ρ : nat → Choice) (w : Work) : option Work :=
  match i with
  | O => Some w
  | S i' =>
      match heaviest_body s minRequiredTips (ρ 0) w with
      | (Break, _) => None
      | (Continue, w') => heaviest_at s minRequiredTips i' (later 1 ρ) w'
      end
  end.

(** The contributions of the tips picked by the heaviest loop, in the
    order of the picks: the [count] that [selectTip] returned for each. *)
Fixpoint heaviest_counts (s : HeaviestSelector) (minRequiredTips : Z)
    (n : nat) (ρ : nat → Choice) (w : Work) : list Z :=
  match n with
  | O => []
  | S n' =>
      match heaviest_body s minRequiredTips (ρ 0) w,
            selectTip (ρ 0) (w_store w) (w_list w) with
      | (Continue, w'), inr (_, count) =>
          count :: heaviest_counts s minRequiredTips n' (later 1 ρ) w'
      | _, _ => []
      end
  end.

(** The contributions of the heaviest picks of a [SelectTips] call. *)
Definition heaviest_contributions (ρ : nat → Choice) (minRequiredTips : Z)
    (h : list trackedMessage) (s : HeaviestSelector) : list Z :=
  heaviest_counts s minRequiredTips
    (Z.to_nat (maxHeaviestBranchTipsPerCheckpoint s)) ρ (select_start h s).

(** ** Scenarios *)

(** Scenario "overlap elimination": A; B and C on A; T1 on B, T2 on C.
    The empty ID stands for a parent outside the tracking window. *)
Definition meta (mid parent1 parent2 : string) : MessageMetadata :=
  {| GetMessageID := mid; GetParent1MessageID := parent1;
     GetParent2MessageID := parent2 |}.

(** Map iterations in their stored order, every draw 0, no deadline. *)
Definition choice0 : Choice :=
  {| rangeSelect := []; rangeReference := []; randomDraw := 0; ctxDone := false |}.

Definition overlap : list MessageMetadata :=
  [meta "A" "" ""; meta "B" "A" ""; meta "C" "A" "";
   meta "T1" "B" ""; meta "T2" "C" ""].

(** A selector with threshold 3, at most 2 heaviest tips, 1 random tip. *)
Definition selector0 : HeaviestSelector :=
  {| minHeaviestBranchUnreferencedMessagesThreshold := 3;
     maxHeaviestBranchTipsPerCheckpoint := 2;
     randomTipsPerCheckpoint := 1;
     heaviestBranchSelectionDeadline := 100;
     trackedMessages := ∅;
     tips := [] |}.

Definition scenario4 : list trackedMessage * HeaviestSelector :=
  ingest_all overlap [] (reset selector0).

(** Overlap elimination with threshold 3, at most 2 heaviest tips and 1
    random tip: T1 is picked, T2 falls below the threshold and is added by
    the random padding. *)
Definition scenario4_run : (error + list string) * (list trackedMessage * HeaviestSelector) :=
  SelectTips (λ _, choice0) 0 scenario4.1 scenario4.2.

(** The same messages in a selector with threshold 1 and no random tip. *)
Definition selector1 : HeaviestSelector :=
  {| minHeaviestBranchUnreferencedMessagesThreshold := 1;
     maxHeaviestBranchTipsPerCheckpoint := 2;
     randomTipsPerCheckpoint := 0;
     heaviestBranchSelectionDeadline := 100;
     trackedMessages := ∅;
     tips := [] |}.

Definition scenario1 : list trackedMessage * HeaviestSelector :=
  ingest_all overlap [] (reset selector1).

(** As [choice0], with the deadline exceeded. *)
Definition choice_late : Choice :=
  {| rangeSelect := []; rangeReference := []; randomDraw := 0; ctxDone := true |}.

(** ** Ingest sequences *)

(** The messages an ingest sequence really adds: the first delivery of
    each message ID, in order. *)
Definition accepted (l : list MessageMetadata) : list MessageMetadata :=
  foldl (λ log e, if decide (GetMessageID e ∈ GetMessageID <$> log)
                  then log else log ++ [e]) [] l.

(** [e] names [x] as one of its two parents. *)
Definition names_parent (x : string) (e : MessageMetadata) : Prop :=
  GetParent1MessageID e = x ∨ GetParent2MessageID e = x.

Global Instance names_parent_dec x e : Decision (names_parent x e).
Proof. unfold names_parent. apply _. Defined.

(** Solidification order: a message is delivered only after its parents,
    so a first delivery is never of a message that something delivered so
    far (or the message itself) names as a parent. *)
Definition in_order (seen : list MessageMetadata) (e : MessageMetadata) : Prop :=
  GetMessageID e ∈ (GetMessageID <$> seen) ∨
  Forall (λ e', ¬ names_parent (GetMessageID e) e') (seen ++ [e]).

Fixpoint solid_from (seen l : list MessageMetadata) : Prop :=
  match l with
  | [] => True
  | e :: l' => in_order seen e ∧ solid_from (seen ++ [e]) l'
  end.

Definition solidification_order (l : list MessageMetadata) : Prop := solid_from [] l.

Global Instance solid_from_dec seen l : Decision (solid_from seen l).
Proof.
  revert seen. induction l as [|e l IH]; intros seen; simpl; [apply _|].
  unfold in_order. apply _.
Defined.

(** Between the addresses [a] and [b], a record holds a handle exactly
    when it is in the tip list. *)
Definition linked (a b : nat) (h : list trackedMessage) (tl : list nat) : Prop :=
  ∀ p, a ≤ p < b → tip (deref h p) = if decide (p ∈ tl) then Some p else None.

(** The tip list without the element of [it], if there is one. *)
Definition remove_opt (it : option nat) (tl : list nat) : list nat :=
  match it with Some p => filter (λ q, q ≠ p) tl | None => tl end.

(** Only tip handles differ between two stores. *)
Record retipped (h h' : list trackedMessage) : Prop := {
  retipped_length : length h' = length h;
  retipped_id : ∀ p, messageID (deref h' p) = messageID (deref h p);
  retipped_refs : ∀ p, refs (deref h' p) = refs (deref h p)
}.

(** The state after a sequence of ingests: [log] lists the messages added
    since the reset, which left the store [h0]; the [i]-th of them lives
    at address [length h0 + i]. *)
Record ingest_inv (h0 : list trackedMessage) (log : list MessageMetadata)
    (h : list trackedMessage) (s : HeaviestSelector) : Prop := {
  ii_nodup : NoDup (GetMessageID <$> log);
  ii_length : length h = length h0 + length log;
  ii_size : size (trackedMessages s) = length log;
  ii_tracked : ∀ m p, trackedMessages s !! m = Some p ↔
                 ∃ i e, log !! i = Some e ∧ GetMessageID e = m ∧ p = length h0 + i;
  ii_id : ∀ i e, log !! i = Some e →
            messageID (deref h (length h0 + i)) = GetMessageID e;
  ii_tips : tips s `sublist_of` seq (length h0) (length log);
  ii_linked : linked (length h0) (length h) h (tips s)
}.

(** The bits a new record takes over from a parent. *)
Definition parent_refs (h : list trackedMessage) (it : option nat) : gset nat :=
  match it with Some p => refs (deref h p) | None => ∅ end.

(** [m] is a parent of another message of [log]. *)
Definition parent_of_other (log : list MessageMetadata) (m : string) : Prop :=
  Exists (λ e, GetMessageID e ≠ m ∧ names_parent m e) log.

(** [ancestor log x m]: [x] is a parent of [m], or an ancestor of a parent
    of [m], going by the parents that the messages of [log] name. *)
Inductive ancestor (log : list MessageMetadata) : string → string → Prop :=
  | ancestor_parent x e :
      e ∈ log → names_parent x e → ancestor log x (GetMessageID e)
  | ancestor_step x y e :
      ancestor log x y → e ∈ log → names_parent y e →
      ancestor log x (GetMessageID e).

(** Parents come before their children in [log]. *)
Definition parents_first (log : list MessageMetadata) : Prop :=
  ∀ i j ei ej, log !! i = Some ei → log !! j = Some ej →
    names_parent (GetMessageID ej) ei → j < i.

(** The bits of the [i]-th message of [log] are its own and those of its
    ancestors in [log]. *)
Definition refs_inv (h0 : list trackedMessage) (log : list MessageMetadata)
    (h : list trackedMessage) : Prop :=
  ∀ i e j, log !! i = Some e →
    j ∈ refs (deref h (length h0 + i)) ↔
    ∃ e', log !! j = Some e' ∧
          (j = i ∨ ancestor log (GetMessageID e') (GetMessageID e)).

(** The records of the tips picked by the heaviest loop, in the order of
    the picks. *)
Fixpoint heaviest_picked (s : HeaviestSelector) (minRequiredTips : Z)
    (n : nat) (ρ : nat → Choice) (w : Work) : list nat :=
  match n with
  | O => []
  | S n' =>
      match heaviest_body s minRequiredTips (ρ 0) w,
            selectTip (ρ 0) (w_store w) (w_list w) with
      | (Continue, w'), inr (tip, _) =>
          tip :: heaviest_picked s minRequiredTips n' (later 1 ρ) w'
      | _, _ => []
      end
  end.

Definition heaviest_picks (ρ : nat → Choice) (minRequiredTips : Z)
    (h : list trackedMessage) (s : HeaviestSelector) : list nat :=
  heaviest_picked s minRequiredTips
    (Z.to_nat (maxHeaviestBranchTipsPerCheckpoint s)) ρ (select_start h s).

(** The sum of a list of counts. *)
Definition total (cs : list Z) : Z := foldr Z.add 0%Z cs.

(** The four configuration values of two selectors agree. *)
Definition same_config (s s' : HeaviestSelector) : Prop :=
  minHeaviestBranchUnreferencedMessagesThreshold s' =
    minHeaviestBranchUnreferencedMessagesThreshold s ∧
  maxHeaviestBranchTipsPerCheckpoint s' = maxHeaviestBranchTipsPerCheckpoint s ∧
  randomTipsPerCheckpoint s' = randomTipsPerCheckpoint s ∧
  heaviestBranchSelectionDeadline s' = heaviestBranchSelectionDeadline s.

(** * Properties *)

(** ** The store *)

Lemma deref_insert (h : list trackedMessage) p v q :
  deref (<[p := v]> h) q = if decide (p = q ∧ p < length h) then v else deref h q.
Proof. unfold deref. apply list_lookup_total_insert. Qed.

Lemma deref_app_l (h k : list trackedMessage) p :
  p < length h → deref (h ++ k) p = deref h p.
Proof. intros. unfold deref. by apply lookup_total_app_l. Qed.

Lemma deref_alloc (h : list trackedMessage) t : deref (h ++ [t]) (length h) = t.
Proof. unfold deref. by rewrite list_lookup_total_middle. Qed.

Lemma thinned_refl h : thinned h h.
Proof. by split. Qed.

Lemma thinned_trans h1 h2 h3 : thinned h1 h2 → thinned h2 h3 → thinned h1 h3.
Proof.
  intros [L1 I1 T1 R1] [L2 I2 T2 R2]. split; intros; try congruence.
  etrans; [apply R2 | apply R1].
Qed.

Lemma difference_step_thinned t h o : thinned h (difference_step t h o).
Proof.
  unfold difference_step. split.
  - apply length_insert.
  - intros p. rewrite deref_insert. case_decide as E; [|done]. by destruct E as [-> _].
  - intros p. rewrite deref_insert. case_decide as E; [|done]. by destruct E as [-> _].
  - intros p. rewrite deref_insert. case_decide as E; [|done]. destruct E as [-> _].
    simpl. unfold bitset.InPlaceDifference. set_solver.
Qed.

Lemma difference_fold_thinned t l h : thinned h (foldl (difference_step t) h l).
Proof.
  revert h. induction l as [|o l IH]; intros h; simpl; [apply thinned_refl|].
  eapply thinned_trans; [apply difference_step_thinned | apply IH].
Qed.

(** Records that are not visited keep their bits. *)
Lemma difference_fold_other t l h p :
  p ∉ l → deref (foldl (difference_step t) h l) p = deref h p.
Proof.
  revert h. induction l as [|o l IH]; intros h Hp; simpl; [done|].
  apply not_elem_of_cons in Hp as [Hne Hp]. rewrite IH by done.
  unfold difference_step. rewrite deref_insert. case_decide as E; [|done].
  by destruct E as [-> _].
Qed.

(** A visited record other than [t] loses exactly the bits of [t]. *)
Lemma difference_fold_visited t l h o :
  t ∉ l → o ∈ l →
  refs (deref (foldl (difference_step t) h l) o) = refs (deref h o) ∖ refs (deref h t).
Proof.
  revert h. induction l as [|x l IH]; intros h Ht Ho; [by apply elem_of_nil in Ho|].
  apply not_elem_of_cons in Ht as [Hne Ht]. simpl.
  assert (Htt : deref (difference_step t h x) t = deref h t).
  { unfold difference_step. rewrite deref_insert. case_decide as E; [|done].
    by destruct E as [-> _]. }
  assert (Hx : refs (deref (difference_step t h x) x) = refs (deref h x) ∖ refs (deref h t)).
  { unfold difference_step. rewrite deref_insert. case_decide as E; [done|].
    assert (Hd : deref h x = inhabitant).
    { unfold deref. rewrite list_lookup_total_alt, lookup_ge_None_2; [done|].
      destruct (decide (x < length h)); [|lia]. exfalso. by apply E. }
    rewrite Hd. simpl. set_solver. }
  destruct (decide (o ∈ l)) as [Hin|Hnin].
  - rewrite IH by done. rewrite Htt.
    destruct (decide (o = x)) as [->|Hox]; [rewrite Hx; set_solver|].
    unfold difference_step at 1. rewrite deref_insert.
    case_decide as E; [|done]. by destruct E as [-> _].
  - apply elem_of_cons in Ho as [->|Ho]; [|done].
    by rewrite difference_fold_other.
Qed.

(** ** Iteration order *)

Lemma insert_at_perm {A} k (x : A) l : insert_at k x l ≡ₚ x :: l.
Proof.
  unfold insert_at. rewrite <- Permutation_middle. by rewrite take_drop.
Qed.

Lemma shuffle_perm {A} ks (l : list A) : shuffle ks l ≡ₚ l.
Proof.
  revert ks. induction l as [|x l IH]; intros ks; simpl; [done|].
  rewrite insert_at_perm. by rewrite IH.
Qed.

(** Every order of a Go map iteration is an instance of [shuffle]. *)
Lemma shuffle_complete {A} (l l' : list A) : l ≡ₚ l' → ∃ ks, shuffle ks l = l'.
Proof.
  revert l'. induction l as [|x l IH]; intros l' Hp.
  - apply Permutation_nil_l in Hp as <-. by exists [].
  - assert (Hx : x ∈ l') by (rewrite <- Hp; apply elem_of_cons; by left).
    apply list_elem_of_split in Hx as (l1 & l2 & ->).
    apply Permutation_cons_app_inv in Hp.
    destruct (IH _ Hp) as [ks Hks].
    exists (length l1 :: ks). cbn [shuffle hd tail]. rewrite Hks.
    rewrite Nat.mod_small by (rewrite length_app; lia).
    unfold insert_at. by rewrite take_app_length, drop_app_length.
Qed.

Lemma elem_of_range ks (m : gmap string nat) p :
  p ∈ range ks m ↔ ∃ k, m !! k = Some p.
Proof.
  unfold range. rewrite shuffle_perm, list_elem_of_fmap. split.
  - intros ([k q] & -> & Hin). exists k. by apply elem_of_map_to_list.
  - intros [k Hk]. exists (k, p). split; [done|]. by apply elem_of_map_to_list.
Qed.

Lemma length_range ks (m : gmap string nat) : length (range ks m) = size m.
Proof.
  unfold range. by rewrite shuffle_perm, length_fmap, length_map_to_list.
Qed.

(** ** The scan of [selectTip] *)

Lemma weight_nonneg h p : (0 ≤ weight h p)%Z.
Proof. unfold weight, bitset.Count. lia. Qed.

Lemma weight_thinned h h' p : thinned h h' → (weight h' p ≤ weight h p)%Z.
Proof.
  intros Ht. unfold weight, bitset.Count.
  apply inj_le, subseteq_size, (thinned_refs _ _ Ht).
Qed.

Lemma scan_count_mono h l b :
  (best_count b ≤ best_count (foldl (selectTip_scan h) b l))%Z.
Proof.
  revert b. induction l as [|p l IH]; intros b; simpl; [lia|].
  etrans; [|apply IH]. unfold selectTip_scan.
  repeat case_match; simpl; lia.
Qed.

Lemma scan_upper h l b p :
  p ∈ l → (weight h p ≤ best_count (foldl (selectTip_scan h) b l))%Z.
Proof.
  revert b. induction l as [|q l IH]; intros b Hp; [by apply elem_of_nil in Hp|].
  apply elem_of_cons in Hp as [->|Hp]; simpl; [|by apply IH].
  etrans; [|apply scan_count_mono]. unfold selectTip_scan. fold (weight h q).
  repeat case_match; simpl; lia.
Qed.

Lemma scan_tips h l b t :
  (∀ x, x ∈ best_tips b → weight h x = best_count b) →
  t ∈ best_tips (foldl (selectTip_scan h) b l) →
  (t ∈ best_tips b ∨ t ∈ l) ∧
  weight h t = best_count (foldl (selectTip_scan h) b l).
Proof.
  revert b. induction l as [|q l IH]; intros b Hb Ht; simpl in *; [by auto|].
  apply IH in Ht as [Hin Hw].
  - split; [|done]. destruct Hin as [Hin|Hin]; [|right; by apply elem_of_cons; right].
    revert Hin. unfold selectTip_scan. fold (weight h q).
    repeat case_match; simpl; rewrite ?elem_of_app, ?list_elem_of_singleton;
      intros; destruct_or?; subst; auto; right; apply elem_of_cons; by left.
  - intros x. unfold selectTip_scan. fold (weight h q).
    repeat case_match; simpl; rewrite ?elem_of_app, ?list_elem_of_singleton;
      intros; destruct_or?; subst; auto; lia.
Qed.

Lemma scan_found h l b :
  best_tips b ≠ [] → best_tips (foldl (selectTip_scan h) b l) ≠ [].
Proof.
  revert b. induction l as [|q l IH]; intros b Hb; simpl; [done|].
  apply IH. unfold selectTip_scan.
  repeat case_match; simpl; [done| |done]. by destruct (best_tips b).
Qed.

Lemma scan_first h p l :
  best_tips (foldl (selectTip_scan h) {| best_tips := []; best_count := 0 |} (p :: l)) ≠ [].
Proof.
  simpl. apply scan_found. unfold selectTip_scan. fold (weight h p).
  pose proof (weight_nonneg h p). simpl.
  repeat case_match; simpl; try done; lia.
Qed.

Lemma Len_zero il : (Len il =? 0)%Z = true ↔ msgs il = ∅.
Proof.
  unfold Len. rewrite Z.eqb_eq, <- map_size_empty_iff. lia.
Qed.

(** [selectTip] fails on the empty working list only. *)
Lemma selectTip_inl c h il e : selectTip c h il = inl e → msgs il = ∅.
Proof.
  unfold selectTip. destruct (Len il =? 0)%Z eqn:E; [by rewrite <- Len_zero|].
  intros Hs. exfalso.
  destruct (range (rangeSelect c) (msgs il)) as [|p l] eqn:Hr.
  - apply (f_equal length) in Hr. rewrite length_range in Hr. simpl in Hr.
    apply map_size_empty_iff, Len_zero in Hr. congruence.
  - pose proof (scan_first h p l) as Hne.
    destruct (best_tips _) eqn:Hb; [done|discriminate].
Qed.

(** The tip returned by [selectTip] is in the working list, [count] is
    its weight, and no entry of the working list is heavier. *)
Lemma selectTip_inr c h il t n :
  selectTip c h il = inr (t, n) →
  (∃ k, msgs il !! k = Some t) ∧ n = weight h t ∧
  ∀ k p, msgs il !! k = Some p → (weight h p ≤ n)%Z.
Proof.
  unfold selectTip. destruct (Len il =? 0)%Z; [done|].
  set (b := foldl _ _ _). destruct (best_tips b) as [|t0 ts] eqn:Hb; [done|].
  intros [= <- <-].
  assert (Hin : nth (Z.to_nat (RandomInsecure (randomDraw c) 0
                       (Z.of_nat (length (t0 :: ts)) - 1))) (t0 :: ts) t0 ∈ best_tips b).
  { rewrite Hb. apply list_elem_of_In.
    destruct (nth_in_or_default
      (Z.to_nat (RandomInsecure (randomDraw c) 0 (Z.of_nat (length (t0 :: ts)) - 1)))
      (t0 :: ts) t0) as [H| ->]; [done|by left]. }
  apply scan_tips in Hin as [[Hin|Hin] Hw]; [by apply elem_of_nil in Hin| |simpl; intros ? []%elem_of_nil].
  split; [by apply elem_of_range in Hin|]. split; [done|].
  intros k p Hp. apply scan_upper. apply elem_of_range. eauto.
Qed.

(** ** The working list is keyed by message ID *)

Lemma keyed_thinned h h' m : thinned h h' → keyed h m → keyed h' m.
Proof. intros Ht Hk k p Hp. rewrite (thinned_id _ _ Ht). by apply Hk. Qed.

Lemma keyed_delete h m k : keyed h m → keyed h (delete k m).
Proof. intros Hk k' p Hp. apply lookup_delete_Some in Hp as [_ Hp]. by apply Hk. Qed.

Lemma snapshot_fold (h : list trackedMessage) (l : list nat) (acc : gmap string nat) k p :
  foldl (λ result tip, <[ messageID (deref h tip) := tip ]> result) acc l !! k = Some p →
  (p ∈ l ∧ messageID (deref h p) = k) ∨ acc !! k = Some p.
Proof.
  revert acc. induction l as [|q l IH]; intros acc Hl; simpl in *; [by right|].
  apply IH in Hl as [[Hin Hid]|Hl].
  - left. split; [apply elem_of_cons; by right|done].
  - apply lookup_insert_Some in Hl as [[<- <-]|[_ Hl]]; [|by right].
    left. split; [apply elem_of_cons; by left|done].
Qed.

Lemma snapshot_fold_dom (h : list trackedMessage) (l : list nat) (acc : gmap string nat) k :
  is_Some (acc !! k) ∨ (∃ p, p ∈ l ∧ messageID (deref h p) = k) →
  is_Some (foldl (λ result tip, <[ messageID (deref h tip) := tip ]> result) acc l !! k).
Proof.
  revert acc. induction l as [|q l IH]; intros acc Hk; simpl.
  - destruct Hk as [Hk|(p & []%elem_of_nil & _)]. done.
  - apply IH. destruct Hk as [Hk|(p & Hp & Hid)].
    + left. rewrite lookup_insert_is_Some. destruct (decide (messageID (deref h q) = k)); auto.
    + apply elem_of_cons in Hp as [->|Hp].
      * left. rewrite Hid, lookup_insert_eq. eauto.
      * right. eauto.
Qed.

(** The snapshot holds tips only, each under its message ID. *)
Lemma tipsToList_lookup h s k p :
  msgs (tipsToList h s) !! k = Some p → p ∈ tips s ∧ messageID (deref h p) = k.
Proof.
  intros Hl. apply snapshot_fold in Hl as [Hl|Hl]; [done|]. by rewrite lookup_empty in Hl.
Qed.

Lemma tipsToList_keyed h s : keyed h (msgs (tipsToList h s)).
Proof. intros k p Hp. by apply tipsToList_lookup in Hp as [_ Hp]. Qed.

Lemma tipsToList_empty h s : msgs (tipsToList h s) = ∅ ↔ tips s = [].
Proof.
  split.
  - intros He. destruct (tips s) as [|p l] eqn:Ht; [done|]. exfalso.
    assert (Hs : is_Some (msgs (tipsToList h s) !! messageID (deref h p))).
    { apply snapshot_fold_dom. right. exists p. rewrite Ht. split; [apply elem_of_cons; by left|done]. }
    rewrite He, lookup_empty in Hs. by destruct Hs.
  - intros He. unfold tipsToList. by rewrite He.
Qed.

(** ** Referencing a tip *)

Lemma referenceTip_store c t h il :
  thinned h (referenceTip c t h il).1.
Proof. apply difference_fold_thinned. Qed.

Lemma referenceTip_list c t h il :
  msgs (referenceTip c t h il).2 = delete (messageID (deref h t)) (msgs il).
Proof. done. Qed.

Lemma referenceTip_other c t h il p :
  (∀ k, msgs il !! k ≠ Some p) → deref (referenceTip c t h il).1 p = deref h p.
Proof.
  intros Hp. apply difference_fold_other. rewrite elem_of_range.
  intros [k Hk]. simpl in Hk. apply lookup_delete_Some in Hk as [_ Hk]. by apply (Hp k).
Qed.

Lemma referenceTip_removed c t h il k :
  keyed h (msgs il) → msgs (referenceTip c t h il).2 !! k ≠ Some t.
Proof.
  intros Hk Hl. simpl in Hl. apply lookup_delete_Some in Hl as [Hne Hl]. by apply Hk in Hl.
Qed.

(** Every remaining entry loses exactly the bits of the referenced tip. *)
Lemma referenceTip_refs c t h il k o :
  keyed h (msgs il) → msgs (referenceTip c t h il).2 !! k = Some o →
  refs (deref (referenceTip c t h il).1 o) = refs (deref h o) ∖ refs (deref h t).
Proof.
  intros Hk Ho. apply difference_fold_visited.
  - rewrite elem_of_range. intros [k' Hk']. by apply (referenceTip_removed c t h il k').
  - apply elem_of_range. eauto.
Qed.

(** ** The loops of [SelectTips] *)

Lemma heaviest_body_inl s m c w e :
  selectTip c (w_store w) (w_list w) = inl e →
  heaviest_body s m c w = (Break, stall (w_deadline w || ctxDone c) w).
Proof. intros H. unfold heaviest_body. by rewrite H. Qed.

Lemma heaviest_body_inr s m c w t n :
  selectTip c (w_store w) (w_list w) = inr (t, n) →
  heaviest_body s m c w =
    if early_stop s m w n (w_deadline w || ctxDone c)
    then (Break, stall (w_deadline w || ctxDone c) w)
    else (Continue, pick c t (w_deadline w || ctxDone c) w).
Proof. intros H. unfold heaviest_body, early_stop. by rewrite H. Qed.

(** A pass either leaves the working list alone and breaks, or picks an
    entry of the working list and continues. *)
Lemma heaviest_body_cases s m c w :
  (∃ d, heaviest_body s m c w = (Break, stall d w)) ∨
  (∃ t n d, selectTip c (w_store w) (w_list w) = inr (t, n) ∧
            early_stop s m w n d = false ∧
            heaviest_body s m c w = (Continue, pick c t d w)).
Proof.
  destruct (selectTip c (w_store w) (w_list w)) as [e|[t n]] eqn:Hs.
  - left. eexists. by apply heaviest_body_inl with e.
  - rewrite (heaviest_body_inr _ _ _ _ _ _ Hs).
    destruct (early_stop _ _ _ _ _) eqn:He; [left; eauto|right].
    exists t, n, (w_deadline w || ctxDone c). done.
Qed.

Lemma randomTip_loop_elem i l p : randomTip_loop i l = inr p → p ∈ l.
Proof.
  revert i. induction l as [|q l IH]; intros i; simpl; [done|].
  case_match; [intros [= ->]; apply elem_of_cons; by left|].
  intros Hr. apply elem_of_cons. right. by eapply IH.
Qed.

Lemma randomTip_inr c il p : randomTip c il = inr p → ∃ k, msgs il !! k = Some p.
Proof.
  unfold randomTip. case_match; [done|].
  intros Hr%randomTip_loop_elem. by apply elem_of_range in Hr.
Qed.

Lemma random_body_cases c w :
  random_body c w = (Break, w) ∨
  (∃ t, randomTip c (w_list w) = inr t ∧
        random_body c w = (Continue, pick c t (w_deadline w) w)).
Proof.
  unfold random_body. destruct (randomTip c (w_list w)) as [e|t] eqn:Hr; [by left|].
  right. by exists t.
Qed.

Lemma work_inv_start h s : work_inv h (msgs (tipsToList h s)) (select_start h s).
Proof.
  split; simpl;
    [apply thinned_refl | apply tipsToList_keyed | done | constructor
    | by intros m ?%elem_of_nil | done].
Qed.

Lemma work_inv_stall h0 W0 d w : work_inv h0 W0 w → work_inv h0 W0 (stall d w).
Proof. by intros []. Qed.

Lemma work_inv_pick h0 W0 c t d w :
  work_inv h0 W0 w → (∃ k, msgs (w_list w) !! k = Some t) →
  work_inv h0 W0 (pick c t d w).
Proof.
  intros [Ht Hk Hsub Hnd Hout Hfr] [k Hkt].
  pose proof (referenceTip_store c t (w_store w) (w_list w)) as Hr.
  assert (Hid : messageID (deref (w_store w) t) = k).
  { rewrite (thinned_id _ _ Ht). by apply Hk. }
  split; cbn [pick w_store w_list w_tips w_deadline]; rewrite ?referenceTip_list.
  - by eapply thinned_trans.
  - by apply keyed_delete.
  - intros k' p [_ Hp]%lookup_delete_Some. by apply Hsub.
  - rewrite (thinned_id _ _ Hr), Hid. apply NoDup_app. split; [done|].
    split; [|apply NoDup_singleton].
    intros m Hm ->%list_elem_of_singleton. apply Hout in Hm as [_ Hm]. congruence.
  - rewrite (thinned_id _ _ Hr), Hid. intros m [Hm| ->%list_elem_of_singleton]%elem_of_app.
    + apply Hout in Hm as [Hm1 Hm2]. split; [done|].
      apply lookup_delete_None. by right.
    + split; [by erewrite Hsub|]. by rewrite lookup_delete_eq.
  - intros p Hp. rewrite referenceTip_other; [by apply Hfr|].
    intros k' Hk'. by apply (Hp k'), Hsub.
Qed.

Lemma heaviest_loop_inv h0 W0 s m n ρ w :
  work_inv h0 W0 w → work_inv h0 W0 (heaviest_loop s m n ρ w).
Proof.
  revert ρ w. induction n as [|n IH]; intros ρ w Hw; simpl; [done|].
  destruct (heaviest_body_cases s m (ρ 0) w) as [[d ->]|(t & c & d & Hs & _ & ->)].
  - by apply work_inv_stall.
  - apply IH, work_inv_pick; [done|]. by apply selectTip_inr in Hs as [Hs _].
Qed.

Lemma random_loop_inv h0 W0 n ρ w :
  work_inv h0 W0 w → work_inv h0 W0 (random_loop n ρ w).
Proof.
  revert ρ w. induction n as [|n IH]; intros ρ w Hw; simpl; [done|].
  destruct (random_body_cases (ρ 0) w) as [->|(t & Hr & ->)]; [done|].
  apply IH, work_inv_pick; [done|]. by apply randomTip_inr in Hr.
Qed.

(** Each loop appends at most one tip per pass, and never drops one. *)
Lemma heaviest_loop_length s m n ρ w :
  length (w_tips w) ≤ length (w_tips (heaviest_loop s m n ρ w)) ≤ length (w_tips w) + n.
Proof.
  revert ρ w. induction n as [|n IH]; intros ρ w; simpl; [lia|].
  destruct (heaviest_body_cases s m (ρ 0) w) as [[d ->]|(t & c & d & _ & _ & ->)].
  - simpl. lia.
  - specialize (IH (later 1 ρ) (pick (ρ 0) t d w)). simpl in IH.
    rewrite length_app in IH. simpl in IH. lia.
Qed.

Lemma random_loop_length n ρ w :
  length (w_tips w) ≤ length (w_tips (random_loop n ρ w)) ≤ length (w_tips w) + n.
Proof.
  revert ρ w. induction n as [|n IH]; intros ρ w; simpl; [lia|].
  destruct (random_body_cases (ρ 0) w) as [->|(t & _ & ->)]; [lia|].
  specialize (IH (later 1 ρ) (pick (ρ 0) t (w_deadline w) w)). simpl in IH.
  rewrite length_app in IH. simpl in IH. lia.
Qed.

(** A heaviest loop that appended nothing touched neither the store nor
    the working list. *)
Lemma heaviest_loop_idle s m n ρ w :
  length (w_tips (heaviest_loop s m n ρ w)) = length (w_tips w) →
  w_store (heaviest_loop s m n ρ w) = w_store w ∧
  w_list (heaviest_loop s m n ρ w) = w_list w.
Proof.
  destruct n as [|n]; simpl; [done|].
  destruct (heaviest_body_cases s m (ρ 0) w) as [[d ->]|(t & c & d & _ & _ & ->)]; [done|].
  pose proof (heaviest_loop_length s m n (later 1 ρ) (pick (ρ 0) t d w)) as Hl.
  simpl in Hl. rewrite length_app in Hl. simpl in Hl. lia.
Qed.

(** ** [SelectTips] *)

Section select.
Context (ρ : nat → Choice) (minRequiredTips : Z).
Context (h : list trackedMessage) (s : HeaviestSelector).

Lemma select_heaviest_inv :
  work_inv h (msgs (tipsToList h s)) (select_heaviest ρ minRequiredTips h s).
Proof. apply heaviest_loop_inv, work_inv_start. Qed.

Lemma select_random_inv :
  work_inv h (msgs (tipsToList h s)) (select_random ρ minRequiredTips h s).
Proof. apply random_loop_inv, select_heaviest_inv. Qed.

(** The three ways out of [SelectTips]: lines 177, 212 and 229. *)
Lemma SelectTips_cases :
  (tips s = [] ∧ SelectTips ρ minRequiredTips h s = (inl ErrNoTipsAvailable, (h, s))) ∨
  (tips s ≠ [] ∧ w_tips (select_heaviest ρ minRequiredTips h s) = [] ∧
   SelectTips ρ minRequiredTips h s =
     (inl ErrNoTipsAvailable, (w_store (select_heaviest ρ minRequiredTips h s), s))) ∨
  (tips s ≠ [] ∧ w_tips (select_heaviest ρ minRequiredTips h s) ≠ [] ∧
   SelectTips ρ minRequiredTips h s =
     (inr (w_tips (select_random ρ minRequiredTips h s)),
      (w_store (select_random ρ minRequiredTips h s), reset s))).
Proof.
  unfold SelectTips. destruct (Len (tipsToList h s) =? 0)%Z eqn:E.
  - left. by apply Len_zero, tipsToList_empty in E.
  - right. assert (tips s ≠ []).
    { intros Ht%(tipsToList_empty h). apply Len_zero in Ht. congruence. }
    destruct (w_tips (select_heaviest ρ minRequiredTips h s)) eqn:Hw; [by left|by right].
Qed.

Lemma select_heaviest_idle :
  w_tips (select_heaviest ρ minRequiredTips h s) = [] →
  w_store (select_heaviest ρ minRequiredTips h s) = h.
Proof.
  intros Hw. unfold select_heaviest in *.
  by apply heaviest_loop_idle; rewrite Hw.
Qed.

End select.

(** When the heaviest loop of a selection over a non-empty tip list picks
    nothing: it makes no pass, or its first pass stops early. *)
Lemma select_heaviest_nil ρ m h s :
  tips s ≠ [] →
  w_tips (select_heaviest ρ m h s) = [] ↔
  (maxHeaviestBranchTipsPerCheckpoint s ≤ 0)%Z ∨
  ∃ t n, selectTip (ρ 0) h (tipsToList h s) = inr (t, n) ∧ (m < 0)%Z ∧
         ((n < uint (minHeaviestBranchUnreferencedMessagesThreshold s))%Z ∨
          ctxDone (ρ 0) = true).
Proof.
  intros Ht. unfold select_heaviest.
  destruct (Z.to_nat (maxHeaviestBranchTipsPerCheckpoint s)) as [|n] eqn:Hn.
  { simpl. split; [left; lia|done]. }
  destruct (selectTip (ρ 0) h (tipsToList h s)) as [e|[t c]] eqn:Hs.
  { apply selectTip_inl, tipsToList_empty in Hs. done. }
  cbn [heaviest_loop].
  rewrite (heaviest_body_inr s m (ρ 0) (select_start h s) t c Hs).
  unfold early_stop. cbn [select_start w_tips w_deadline length orb].
  change (Z.of_nat 0) with 0%Z.
  destruct (m <? 0)%Z eqn:Hm; cbn [andb].
  - destruct ((c <? uint _)%Z || ctxDone (ρ 0)) eqn:Hc.
    + split; [|done]. intros _. right. exists t, c.
      apply orb_true_iff in Hc. rewrite Z.ltb_lt in Hc. split; [done|]. split; [lia|done].
    + pose proof (heaviest_loop_length s m n (later 1 ρ)
        (pick (ρ 0) t (ctxDone (ρ 0)) (select_start h s))) as Hl.
      cbn [pick w_tips select_start app length] in Hl.
      split.
      * intros Hw. rewrite Hw in Hl. simpl in Hl. lia.
      * intros [?|(t' & c' & [= <- <-] & _ & Hc')]; [lia|].
        apply orb_false_iff in Hc as [Hc1 Hc2]. rewrite Z.ltb_ge in Hc1.
        destruct Hc'; [lia|congruence].
  - pose proof (heaviest_loop_length s m n (later 1 ρ)
      (pick (ρ 0) t (ctxDone (ρ 0)) (select_start h s))) as Hl.
    cbn [pick w_tips select_start app length] in Hl.
    split.
    + intros Hw. rewrite Hw in Hl. simpl in Hl. lia.
    + intros [?|(t' & c' & _ & ? & _)]; lia.
Qed.

(** C4 — [SelectTips] fails with [ErrNoTipsAvailable] exactly when the tip
    list is empty when it is called or the heaviest loop over the snapshot
    selected no tip (it made no pass, or its first pass stopped early); and
    whenever it fails, the store and the selector are those it was called
    with. *)
Theorem SelectTips_error_iff_no_tip ρ m h s :
  ((SelectTips ρ m h s).1 = inl ErrNoTipsAvailable ↔
     tips s = [] ∨ w_tips (select_heaviest ρ m h s) = []) ∧
  ((SelectTips ρ m h s).1 = inl ErrNoTipsAvailable ↔
     tips s = [] ∨ (maxHeaviestBranchTipsPerCheckpoint s ≤ 0)%Z ∨
     ∃ t n, selectTip (ρ 0) h (tipsToList h s) = inr (t, n) ∧ (m < 0)%Z ∧
            ((n < uint (minHeaviestBranchUnreferencedMessagesThreshold s))%Z ∨
             ctxDone (ρ 0) = true)) ∧
  ((SelectTips ρ m h s).1 = inl ErrNoTipsAvailable → (SelectTips ρ m h s).2 = (h, s)).
Proof.
  assert (H1 : (SelectTips ρ m h s).1 = inl ErrNoTipsAvailable ↔
               tips s = [] ∨ w_tips (select_heaviest ρ m h s) = []).
  { destruct (SelectTips_cases ρ m h s) as [[Ht ->]|[(Ht & Hw & ->)|(Ht & Hw & ->)]];
      simpl; split; auto; try done. by intros [|]. }
  split; [done|]. split.
  - rewrite H1. destruct (decide (tips s = [])) as [Ht|Ht]; [by split; left|].
    rewrite (select_heaviest_nil ρ m h s Ht). tauto.
  - destruct (SelectTips_cases ρ m h s) as [[Ht ->]|[(Ht & Hw & ->)|(Ht & Hw & ->)]];
      simpl; [done| |done].
    intros _. by rewrite select_heaviest_idle.
Qed.

(** C8 — after a successful [SelectTips] the selector is reset: no message
    is tracked ([GetTrackedMessagesCount] is 0) and the tip list is empty. *)
Theorem SelectTips_success_resets ρ m h s out h' s' :
  SelectTips ρ m h s = (inr out, (h', s')) →
  GetTrackedMessagesCount s' = 0%Z ∧ trackedMessages s' = ∅ ∧ tips s' = [].
Proof.
  destruct (SelectTips_cases ρ m h s) as [[Ht ->]|[(Ht & Hw & ->)|(Ht & Hw & ->)]];
    [done|done|].
  by intros [= _ _ <-].
Qed.

Lemma snapshot_tip_id h s m : is_Some (msgs (tipsToList h s) !! m) → m ∈ tip_ids h s.
Proof.
  intros [p [Hp Hid]%tipsToList_lookup]. unfold tip_ids.
  apply list_elem_of_fmap. by exists p.
Qed.

(** C7 — a successful [SelectTips] returns a non-empty sequence of message
    IDs, each the ID of a tip of the selector when it was called, of length
    between 1 and maxHeaviestBranchTipsPerCheckpoint +
    randomTipsPerCheckpoint (for a non-negative randomTipsPerCheckpoint). *)
Theorem SelectTips_output ρ m h s out σ :
  (0 ≤ randomTipsPerCheckpoint s)%Z →
  SelectTips ρ m h s = (inr out, σ) →
  out ≠ [] ∧
  (∀ x, x ∈ out → x ∈ tip_ids h s) ∧
  (1 ≤ Z.of_nat (length out)
     ≤ maxHeaviestBranchTipsPerCheckpoint s + randomTipsPerCheckpoint s)%Z.
Proof.
  intros Hr.
  destruct (SelectTips_cases ρ m h s) as [[Ht ->]|[(Ht & Hw & ->)|(Ht & Hw & ->)]];
    [done|done|].
  intros [= <- _].
  pose proof (select_random_inv ρ m h s) as Hi.
  pose proof (random_loop_length (Z.to_nat (randomTipsPerCheckpoint s))
    (later (Z.to_nat (maxHeaviestBranchTipsPerCheckpoint s)) ρ)
    (select_heaviest ρ m h s)) as Hl2.
  pose proof (heaviest_loop_length s m (Z.to_nat (maxHeaviestBranchTipsPerCheckpoint s))
    ρ (select_start h s)) as Hl1.
  fold (select_heaviest ρ m h s) in Hl1. fold (select_random ρ m h s) in Hl2.
  simpl in Hl1.
  assert (0 < length (w_tips (select_heaviest ρ m h s))).
  { destruct (w_tips (select_heaviest ρ m h s)); [done|simpl; lia]. }
  split; [|split].
  - intros Hn. rewrite Hn in Hl2. simpl in Hl2. lia.
  - intros x Hx. apply snapshot_tip_id. by apply (wi_out _ _ _ Hi).
  - lia.
Qed.

(** C10 — the message IDs returned by a successful [SelectTips] are
    pairwise distinct. *)
Theorem SelectTips_output_NoDup ρ m h s out σ :
  SelectTips ρ m h s = (inr out, σ) → NoDup out.
Proof.
  destruct (SelectTips_cases ρ m h s) as [[Ht ->]|[(Ht & Hw & ->)|(Ht & Hw & ->)]];
    [done|done|].
  intros [= <- _]. apply (wi_nodup _ _ _ (select_random_inv ρ m h s)).
Qed.

(** ** The passes of the heaviest loop *)

Lemma heaviest_at_inv h0 W0 s m i ρ w wi :
  work_inv h0 W0 w → heaviest_at s m i ρ w = Some wi → work_inv h0 W0 wi.
Proof.
  revert ρ w. induction i as [|i IH]; intros ρ w Hw; simpl; [by intros [= <-]|].
  destruct (heaviest_body_cases s m (ρ 0) w) as [[d ->]|(t & c & d & Hs & _ & ->)]; [done|].
  apply IH, work_inv_pick; [done|]. by apply selectTip_inr in Hs as [Hs _].
Qed.

(** The heaviest loop goes on from the state of any pass it reaches,
    with the choices of that pass and the later ones. *)
Lemma heaviest_loop_at s m n i ρ w wi :
  heaviest_at s m i ρ w = Some wi → i ≤ n →
  heaviest_loop s m n ρ w = heaviest_loop s m (n - i) (later i ρ) wi.
Proof.
  revert n ρ w. induction i as [|i IH]; intros n ρ w.
  - intros [= <-] _. by rewrite Nat.sub_0_r.
  - intros Hat Hle. destruct n as [|n]; [lia|]. simpl in *.
    destruct (heaviest_body s m (ρ 0) w) as [[] w']; [done|].
    by rewrite (IH n (later 1 ρ) w') by (done || lia).
Qed.

(** C5 — in every pass of the heaviest loop of [SelectTips] in which
    [selectTip] chose a tip [t] with contribution [n] (the weight of [t],
    maximal over the working list): the loop breaks there, leaving output,
    working list and store as they are, if and only if the output already
    holds more than minRequiredTips tips and [n] is below the threshold or
    the deadline was exceeded; otherwise the ID of [t] is appended to the
    output, [t] is removed from the working list, and every remaining
    entry loses exactly the bits of [t]. The threshold is a non-negative
    int. *)
Theorem heaviest_pass_stops_or_picks ρ m h s i w t n :
  (0 ≤ minHeaviestBranchUnreferencedMessagesThreshold s < 2 ^ 63)%Z →
  heaviest_at s m i ρ (select_start h s) = Some w →
  selectTip (later i ρ 0) (w_store w) (w_list w) = inr (t, n) →
  let c := later i ρ 0 in
  let deadlineExceeded := w_deadline w || ctxDone c in
  let stop := (m < Z.of_nat (length (w_tips w)))%Z ∧
              ((n < minHeaviestBranchUnreferencedMessagesThreshold s)%Z ∨
               deadlineExceeded = true) in
  let r := heaviest_body s m c w in
  n = weight (w_store w) t ∧
  (∀ k o, msgs (w_list w) !! k = Some o → (weight (w_store w) o ≤ n)%Z) ∧
  (r.1 = Break ↔ stop) ∧
  (stop → w_tips r.2 = w_tips w ∧ w_list r.2 = w_list w ∧ w_store r.2 = w_store w) ∧
  (¬ stop →
     r.1 = Continue ∧
     w_tips r.2 = w_tips w ++ [messageID (deref (w_store w) t)] ∧
     msgs (w_list r.2) = delete (messageID (deref (w_store w) t)) (msgs (w_list w)) ∧
     (∀ k, msgs (w_list r.2) !! k ≠ Some t) ∧
     (∀ k o, msgs (w_list r.2) !! k = Some o →
        refs (deref (w_store r.2) o) =
        refs (deref (w_store w) o) ∖ refs (deref (w_store w) t))).
Proof.
  intros Hthr Hat Hs c dl stop r.
  pose proof (heaviest_at_inv _ _ _ _ _ _ _ _ (work_inv_start h s) Hat) as Hi.
  assert (Hk : keyed (w_store w) (msgs (w_list w))).
  { eapply keyed_thinned; [apply (wi_thinned _ _ _ Hi)|apply (wi_keyed _ _ _ Hi)]. }
  destruct (selectTip_inr _ _ _ _ _ Hs) as (_ & Hn & Hmax).
  assert (Hstop : early_stop s m w n dl = true ↔ stop).
  { unfold early_stop, stop, uint. rewrite Z.mod_small by lia.
    rewrite andb_true_iff, orb_true_iff, !Z.ltb_lt. done. }
  subst r. rewrite (heaviest_body_inr s m c w t n Hs). fold dl.
  split; [done|]. split; [done|].
  destruct (early_stop s m w n dl) eqn:He.
  - apply proj1 in Hstop. specialize (Hstop eq_refl).
    split; [done|]. split; [done|]. by intros [].
  - assert (Hns : ¬ stop) by (intros Hst; apply Hstop in Hst; done).
    split; [split; [done|by intros ?]|]. split; [by intros ?|]. intros _.
    cbn [fst snd pick w_tips w_list w_store].
    split; [done|]. split.
    { by rewrite (thinned_id _ _ (referenceTip_store c t (w_store w) (w_list w))). }
    split; [done|]. split.
    { intros k. by apply referenceTip_removed. }
    intros k o Ho. by apply (referenceTip_refs c t (w_store w) (w_list w) k o).
Qed.

Lemma heaviest_counts_length s m n ρ w :
  length (w_tips (heaviest_loop s m n ρ w)) =
  length (w_tips w) + length (heaviest_counts s m n ρ w).
Proof.
  revert ρ w. induction n as [|n IH]; intros ρ w; simpl; [lia|].
  destruct (heaviest_body_cases s m (ρ 0) w) as [[d ->]|(t & c & d & Hs & _ & ->)].
  - simpl. lia.
  - rewrite Hs, IH. simpl. rewrite length_app. simpl. lia.
Qed.

(** No later contribution exceeds a bound on the weights in the working list. *)
Lemma heaviest_counts_bound s m n ρ w B :
  (∀ k p, msgs (w_list w) !! k = Some p → (weight (w_store w) p ≤ B)%Z) →
  Forall (λ c, (c ≤ B)%Z) (heaviest_counts s m n ρ w).
Proof.
  revert ρ w. induction n as [|n IH]; intros ρ w HB; simpl; [constructor|].
  destruct (heaviest_body_cases s m (ρ 0) w) as [[d ->]|(t & c & d & Hs & _ & ->)];
    [constructor|].
  rewrite Hs. destruct (selectTip_inr _ _ _ _ _ Hs) as ([k Hk] & -> & _).
  constructor; [by eapply HB|].
  apply IH. intros k' p Hp. cbn [pick w_list w_store] in *.
  rewrite referenceTip_list in Hp. apply lookup_delete_Some in Hp as [_ Hp].
  etrans; [apply weight_thinned, referenceTip_store|by eapply HB].
Qed.

Lemma heaviest_counts_sorted s m n ρ w :
  StronglySorted (λ a b, (b ≤ a)%Z) (heaviest_counts s m n ρ w).
Proof.
  revert ρ w. induction n as [|n IH]; intros ρ w; simpl; [constructor|].
  destruct (heaviest_body_cases s m (ρ 0) w) as [[d ->]|(t & c & d & Hs & _ & ->)];
    [constructor|].
  rewrite Hs. destruct (selectTip_inr _ _ _ _ _ Hs) as (_ & _ & Hmax).
  constructor; [apply IH|].
  apply heaviest_counts_bound. intros k' p Hp. cbn [pick w_list w_store] in *.
  rewrite referenceTip_list in Hp. apply lookup_delete_Some in Hp as [_ Hp].
  etrans; [apply weight_thinned, referenceTip_store|by eapply Hmax].
Qed.

(** C6 — the contributions of the heaviest picks of a [SelectTips] call,
    one per tip the heaviest loop appended, never increase from one pick to
    a later one. *)
Theorem heaviest_contributions_nonincreasing ρ m h s :
  length (heaviest_contributions ρ m h s) = length (w_tips (select_heaviest ρ m h s)) ∧
  StronglySorted (λ a b, (b ≤ a)%Z) (heaviest_contributions ρ m h s).
Proof.
  split; [|apply heaviest_counts_sorted].
  unfold select_heaviest, heaviest_contributions.
  by rewrite heaviest_counts_length.
Qed.

(** ** What a selection changes *)

Lemma New_selector0 : New 3 2 1 100 = reset selector0.
Proof. reflexivity. Qed.


Lemma random_loop_thinned n ρ w : thinned (w_store w) (w_store (random_loop n ρ w)).
Proof.
  revert ρ w. induction n as [|n IH]; intros ρ w; simpl; [apply thinned_refl|].
  destruct (random_body_cases (ρ 0) w) as [->|(t & _ & ->)]; [apply thinned_refl|].
  eapply thinned_trans; [|apply IH]. apply referenceTip_store.
Qed.


(** ** Ingest *)

(** A duplicate ingest changes nothing and yields the zero value of the
    named result. *)
Lemma OnNewSolidMessage_duplicate msgMeta h s :
  is_Some (trackedMessages s !! GetMessageID msgMeta) →
  OnNewSolidMessage msgMeta h s = (0%Z, (h, s)).
Proof. intros [p Hp]. unfold OnNewSolidMessage. by rewrite Hp. Qed.

Lemma solid_from_snoc seen l e :
  solid_from seen (l ++ [e]) ↔ solid_from seen l ∧ in_order (seen ++ l) e.
Proof.
  revert seen. induction l as [|x l IH]; intros seen; simpl.
  - rewrite app_nil_r. tauto.
  - rewrite IH, <- app_assoc. simpl. tauto.
Qed.

Lemma solidification_order_snoc l e :
  solidification_order (l ++ [e]) ↔ solidification_order l ∧ in_order l e.
Proof. unfold solidification_order. by rewrite solid_from_snoc. Qed.

Lemma accepted_snoc l e :
  accepted (l ++ [e]) =
  if decide (GetMessageID e ∈ GetMessageID <$> accepted l)
  then accepted l else accepted l ++ [e].
Proof. unfold accepted. by rewrite foldl_snoc. Qed.

Lemma accepted_subseteq l e : e ∈ accepted l → e ∈ l.
Proof.
  induction l as [|x l IH] using rev_ind; [done|].
  rewrite accepted_snoc, elem_of_app. case_decide; [by auto|].
  rewrite elem_of_app. intros [?|?]; auto.
Qed.

Lemma accepted_ids l m :
  m ∈ GetMessageID <$> accepted l ↔ m ∈ GetMessageID <$> l.
Proof.
  induction l as [|x l IH] using rev_ind; [done|].
  rewrite accepted_snoc, fmap_app, elem_of_app, <- IH. simpl.
  rewrite list_elem_of_singleton. case_decide as Hd.
  - split; [by left|]. intros [?| ->]; done.
  - rewrite fmap_app, elem_of_app. simpl. by rewrite list_elem_of_singleton.
Qed.

Lemma accepted_NoDup l : NoDup (GetMessageID <$> accepted l).
Proof.
  induction l as [|x l IH] using rev_ind; [constructor|].
  rewrite accepted_snoc. case_decide as Hd; [done|].
  rewrite fmap_app. apply NoDup_app. split; [done|]. split; [|apply NoDup_singleton].
  intros m Hm ->%list_elem_of_singleton. done.
Qed.

Lemma ingest_all_snoc l e h s :
  ingest_all (l ++ [e]) h s =
  (OnNewSolidMessage e (ingest_all l h s).1 (ingest_all l h s).2).2.
Proof. unfold ingest_all. by rewrite foldl_snoc. Qed.

(** *** Tip handles *)

Lemma retipped_refl h : retipped h h.
Proof. by split. Qed.

Lemma retipped_trans h1 h2 h3 : retipped h1 h2 → retipped h2 h3 → retipped h1 h3.
Proof. intros [L1 I1 R1] [L2 I2 R2]. split; intros; congruence. Qed.

Lemma retipped_set_tip h p e : retipped h (<[ p := set_tip e (deref h p) ]> h).
Proof.
  split; [apply length_insert|..]; intros q; rewrite deref_insert;
    case_decide as E; try done; by destruct E as [-> _].
Qed.

Lemma filter_ne_id (p : nat) (tl : list nat) : p ∉ tl → filter (λ q, q ≠ p) tl = tl.
Proof.
  induction tl as [|x tl IH]; [done|]. intros [Hne Hp]%not_elem_of_cons.
  rewrite filter_cons_True by done. by rewrite IH.
Qed.

Lemma removeTip_spec a b it h s :
  linked a b h (tips s) → b ≤ length h → (∀ p, it = Some p → a ≤ p < b) →
  retipped h (removeTip it h s).1 ∧
  trackedMessages (removeTip it h s).2 = trackedMessages s ∧
  tips (removeTip it h s).2 = remove_opt it (tips s) ∧
  linked a b (removeTip it h s).1 (tips (removeTip it h s).2).
Proof.
  intros Hl Hb Hit. destruct it as [p|]; simpl; [|by auto using retipped_refl].
  specialize (Hit p eq_refl). rewrite (Hl p Hit).
  case_decide as Hin; simpl.
  - split; [apply retipped_set_tip|]. split; [done|]. split; [done|].
    intros q Hq. rewrite deref_insert. unfold list_.Remove.
    destruct (decide (p = q ∧ p < length h)) as [[<- _]|E].
    + simpl. case_decide as E'; [|done].
      apply list_elem_of_filter in E' as [E' _]. done.
    + assert (q ≠ p) by (intros ->; apply E; split; [done|lia]).
      rewrite (Hl q Hq). destruct (decide (q ∈ tips s)) as [Hq'|Hq'].
      * rewrite decide_True; [done|]. by apply list_elem_of_filter.
      * rewrite decide_False; [done|]. by intros [_ ?]%list_elem_of_filter.
  - split; [apply retipped_refl|]. split; [done|]. split; [by rewrite filter_ne_id|done].
Qed.

Lemma ingest_inv_reset h0 s0 : ingest_inv h0 [] h0 (reset s0).
Proof.
  split; simpl; try done.
  - constructor.
  - intros m p. rewrite lookup_empty. split; [done|]. by intros (i & e & ? & _).
  - intros p ?. lia.
Qed.

Lemma ingest_inv_range h0 log h s m p :
  ingest_inv h0 log h s → trackedMessages s !! m = Some p →
  length h0 ≤ p < length h.
Proof.
  intros Hi Hp. apply (ii_tracked _ _ _ _ Hi) in Hp as (i & e & Hl & _ & ->).
  apply lookup_lt_Some in Hl. rewrite (ii_length _ _ _ _ Hi). lia.
Qed.

Lemma ingest_inv_untracked h0 log h s m :
  ingest_inv h0 log h s →
  trackedMessages s !! m = None ↔ m ∉ GetMessageID <$> log.
Proof.
  intros Hi. rewrite list_elem_of_fmap, eq_None_not_Some. split.
  - intros Hn (e & -> & (i & Hi')%list_elem_of_lookup). apply Hn.
    exists (length h0 + i). apply (ii_tracked _ _ _ _ Hi). eauto.
  - intros Hn [p (i & e & Hl & <- & _)%(ii_tracked _ _ _ _ Hi)]. apply Hn.
    exists e. split; [done|]. by eapply list_elem_of_lookup_2.
Qed.

(** The effect of ingesting a message that is not tracked yet. *)
Lemma OnNewSolidMessage_new h0 log h s e :
  ingest_inv h0 log h s →
  trackedMessages s !! GetMessageID e = None →
  ∃ h' s',
    OnNewSolidMessage e h s = (Z.of_nat (S (length log)), (h', s')) ∧
    length h' = S (length h) ∧
    trackedMessages s' = <[ GetMessageID e := length h ]> (trackedMessages s) ∧
    tips s' = remove_opt (trackedMessages s !! GetParent2MessageID e)
                (remove_opt (trackedMessages s !! GetParent1MessageID e) (tips s))
              ++ [length h] ∧
    (∀ p, p < length h → messageID (deref h' p) = messageID (deref h p) ∧
                         refs (deref h' p) = refs (deref h p)) ∧
    messageID (deref h' (length h)) = GetMessageID e ∧
    refs (deref h' (length h)) =
      {[ length log ]} ∪ parent_refs h (trackedMessages s !! GetParent1MessageID e)
                       ∪ parent_refs h (trackedMessages s !! GetParent2MessageID e) ∧
    linked (length h0) (S (length h)) h' (tips s').
Proof.
  intros Hi Hnew. unfold OnNewSolidMessage. rewrite Hnew.
  set (P1 := trackedMessages s !! GetParent1MessageID e).
  set (P2 := trackedMessages s !! GetParent2MessageID e).
  set (r2 := match P2 with Some p => _ | None => _ end).
  set (rec := {| messageID := GetMessageID e; tip := None; refs := r2 |}).
  set (s1 := with_state s _ (tips s)).
  assert (Hr2 : r2 = {[ length log ]} ∪ parent_refs h P1 ∪ parent_refs h P2).
  { subst r2. unfold bitset.InPlaceUnion, bitset.Set_, bitset.New.
    rewrite (ii_size _ _ _ _ Hi). destruct P1, P2; simpl; set_solver. }
  assert (Hl1 : linked (length h0) (length h) (h ++ [rec]) (tips s1)).
  { intros p Hp. rewrite deref_app_l by lia. by apply (ii_linked _ _ _ _ Hi). }
  assert (HP : ∀ P p, P = P1 ∨ P = P2 → P = Some p → length h0 ≤ p < length h).
  { intros P p HPP ->. destruct HPP as [HPP|HPP]; symmetry in HPP;
      by eapply ingest_inv_range. }
  destruct (removeTip_spec (length h0) (length h) P1 (h ++ [rec]) s1 Hl1)
    as (Hrt1 & Htm1 & Htl1 & Hlk1);
    [rewrite length_app; simpl; lia|by intros p; apply HP; left|].
  destruct (removeTip P1 (h ++ [rec]) s1) as [h2 s2]. simpl in Hrt1, Htm1, Htl1, Hlk1.
  destruct (removeTip_spec (length h0) (length h) P2 h2 s2 Hlk1)
    as (Hrt2 & Htm2 & Htl2 & Hlk2);
    [rewrite (retipped_length _ _ Hrt1), length_app; simpl; lia
    |by intros p; apply HP; right|].
  destruct (removeTip P2 h2 s2) as [h3 s3]. simpl in Hrt2, Htm2, Htl2, Hlk2.
  pose proof (retipped_trans _ _ _ Hrt1 Hrt2) as Hrt.
  assert (Hlen3 : length h3 = S (length h)).
  { rewrite (retipped_length _ _ Hrt), length_app. simpl. lia. }
  pose proof (retipped_set_tip h3 (length h) (Some (length h))) as Hrt4.
  pose proof (retipped_trans _ _ _ Hrt Hrt4) as Hrt'.
  cbn [list_.PushBack].
  eexists _, _. split.
  { f_equal. unfold GetTrackedMessagesCount. simpl. rewrite Htm2, Htm1. subst s1. simpl.
    rewrite map_size_insert_None by done. by rewrite (ii_size _ _ _ _ Hi). }
  simpl. split; [by rewrite length_insert|].
  split; [by rewrite Htm2, Htm1|].
  split; [by rewrite Htl2, Htl1|].
  split; [|split; [|split]].
  - intros p Hp. rewrite (retipped_id _ _ Hrt'), (retipped_refs _ _ Hrt').
    by rewrite deref_app_l.
  - by rewrite (retipped_id _ _ Hrt'), deref_alloc.
  - by rewrite (retipped_refs _ _ Hrt'), deref_alloc.
  - intros p Hp. rewrite deref_insert.
    destruct (decide (length h = p ∧ length h < length h3)) as [[<- _]|E].
    + simpl. rewrite decide_True; [done|]. apply elem_of_app. right.
      by apply list_elem_of_singleton.
    + assert (p < length h) by (destruct (decide (p = length h)); [subst; exfalso; apply E; lia|lia]).
      rewrite Hlk2 by lia. destruct (decide (p ∈ tips s3)) as [Hin|Hin].
      * rewrite decide_True; [done|]. apply elem_of_app. by left.
      * rewrite decide_False; [done|].
        intros [?|?%list_elem_of_singleton]%elem_of_app; [done|lia].
Qed.

Lemma remove_opt_sublist it tl : remove_opt it tl `sublist_of` tl.
Proof. destruct it; simpl; [apply sublist_filter|done]. Qed.

Lemma elem_of_remove_opt it tl q :
  q ∈ remove_opt it tl ↔ q ∈ tl ∧ it ≠ Some q.
Proof.
  destruct it as [p|]; simpl; [|naive_solver].
  rewrite list_elem_of_filter. naive_solver.
Qed.

Lemma ingest_inv_step h0 log h s e h' s' n :
  ingest_inv h0 log h s →
  trackedMessages s !! GetMessageID e = None →
  OnNewSolidMessage e h s = (n, (h', s')) →
  ingest_inv h0 (log ++ [e]) h' s'.
Proof.
  intros Hi Hnew Hon.
  destruct (OnNewSolidMessage_new h0 log h s e Hi Hnew)
    as (h'' & s'' & Heq & Hlen & Htm & Htl & Hold & Hid & _ & Hlk).
  rewrite Heq in Hon. injection Hon as _ <- <-.
  pose proof (proj1 (ingest_inv_untracked _ _ _ _ _ Hi) Hnew) as Hfresh.
  pose proof (ii_length _ _ _ _ Hi) as HL.
  split.
  - rewrite fmap_app. apply NoDup_app. split; [apply (ii_nodup _ _ _ _ Hi)|].
    split; [|apply NoDup_singleton]. by intros m Hm ->%list_elem_of_singleton.
  - rewrite Hlen, length_app. simpl. lia.
  - rewrite Htm, map_size_insert_None, length_app by done. simpl.
    rewrite (ii_size _ _ _ _ Hi). lia.
  - intros m p. rewrite Htm. destruct (decide (m = GetMessageID e)) as [->|Hne].
    + rewrite lookup_insert_eq. split.
      * intros [= <-]. exists (length log), e. split; [by rewrite list_lookup_middle|].
        split; [done|lia].
      * intros (i & e' & Hl & He' & ->). f_equal.
        apply lookup_app_Some in Hl as [Hl|[Hge Hl]].
        -- exfalso. apply Hfresh. rewrite <- He'.
           apply list_elem_of_fmap_2. by eapply list_elem_of_lookup_2.
        -- apply lookup_lt_Some in Hl. simpl in Hl. lia.
    + rewrite lookup_insert_ne by done. rewrite (ii_tracked _ _ _ _ Hi). split.
      * intros (i & e' & Hl & He' & ->). exists i, e'.
        split; [by apply lookup_app_l_Some|done].
      * intros (i & e' & Hl & He' & ->). exists i, e'.
        apply lookup_app_Some in Hl as [Hl|[Hge Hl]]; [done|].
        apply list_lookup_singleton_Some in Hl as [_ <-]. done.
  - intros i e' Hl. apply lookup_app_Some in Hl as [Hl|[Hge Hl]].
    + destruct (Hold (length h0 + i)) as [-> _].
      { apply lookup_lt_Some in Hl. lia. }
      by apply (ii_id _ _ _ _ Hi).
    + apply list_lookup_singleton_Some in Hl as [Hz <-].
      replace (length h0 + i) with (length h) by lia. done.
  - rewrite Htl, length_app. simpl. rewrite seq_app. simpl. rewrite <- HL.
    apply sublist_app; [|done].
    etrans; [apply remove_opt_sublist|]. etrans; [apply remove_opt_sublist|].
    apply (ii_tips _ _ _ _ Hi).
  - by rewrite Hlen.
Qed.

(** Every state reached by ingests after a reset is of this form. *)
Lemma ingest_all_inv l h0 s0 :
  ingest_inv h0 (accepted l) (ingest_all l h0 (reset s0)).1 (ingest_all l h0 (reset s0)).2.
Proof.
  induction l as [|e l IH] using rev_ind; [apply ingest_inv_reset|].
  rewrite ingest_all_snoc, accepted_snoc.
  destruct (ingest_all l h0 (reset s0)) as [h s]. simpl in *.
  case_decide as Hd.
  - rewrite OnNewSolidMessage_duplicate; [done|].
    apply not_eq_None_Some. rewrite (ingest_inv_untracked _ _ _ _ _ IH). by intros ?.
  - apply (ingest_inv_untracked _ _ _ _ _ IH) in Hd.
    destruct (OnNewSolidMessage e h s) as [n [h' s']] eqn:Hon.
    by eapply ingest_inv_step.
Qed.

(** *** The tip list *)

Lemma filter_ext_in {A} (P Q : A → Prop) `{!∀ x, Decision (P x), !∀ x, Decision (Q x)}
    (l : list A) :
  (∀ x, x ∈ l → P x ↔ Q x) → filter P l = filter Q l.
Proof.
  induction l as [|a l IH]; intros HPQ; [done|].
  assert (Ha : P a ↔ Q a) by (apply HPQ, elem_of_cons; by left).
  assert (Hl : filter P l = filter Q l).
  { apply IH. intros x Hx. apply HPQ, elem_of_cons. by right. }
  destruct (decide (P a)).
  - rewrite !filter_cons_True by tauto. by rewrite Hl.
  - rewrite !filter_cons_False by tauto. done.
Qed.

Lemma fmap_filter_in {A B} (f : A → B) (P : A → Prop) (Q : B → Prop)
    `{!∀ x, Decision (P x), !∀ x, Decision (Q x)} (l : list A) :
  (∀ x, x ∈ l → P x ↔ Q (f x)) → f <$> filter P l = filter Q (f <$> l).
Proof.
  induction l as [|a l IH]; intros HPQ; [done|].
  assert (Ha : P a ↔ Q (f a)) by (apply HPQ, elem_of_cons; by left).
  assert (Hl : f <$> filter P l = filter Q (f <$> l)).
  { apply IH. intros x Hx. apply HPQ, elem_of_cons. by right. }
  rewrite fmap_cons. destruct (decide (P a)).
  - rewrite !filter_cons_True by tauto. by rewrite fmap_cons, Hl.
  - rewrite !filter_cons_False by tauto. done.
Qed.

Lemma remove_opt_filter (it1 it2 : option nat) (tl : list nat) :
  remove_opt it2 (remove_opt it1 tl) = filter (λ q, it1 ≠ Some q ∧ it2 ≠ Some q) tl.
Proof.
  assert (H1 : ∀ it l, remove_opt it l = filter (λ q : nat, it ≠ Some q) l).
  { intros [p|] l; simpl.
    - apply filter_ext_in. intros q _. naive_solver.
    - induction l as [|x l IH]; [done|]. rewrite filter_cons_True by done. by f_equal. }
  rewrite !H1, list_filter_filter. apply filter_ext_in. tauto.
Qed.

(** A tip of a reachable state is tracked under its own message ID. *)
Lemma ingest_inv_tip h0 log h s q :
  ingest_inv h0 log h s → q ∈ tips s →
  q < length h ∧ trackedMessages s !! messageID (deref h q) = Some q.
Proof.
  intros Hi Hq. apply (λ H, elem_of_sublist _ _ _ H (ii_tips _ _ _ _ Hi)) in Hq.
  apply elem_of_seq in Hq as [Hq1 Hq2].
  destruct (lookup_lt_is_Some_2 log (q - length h0)) as [e He]; [lia|].
  split; [rewrite (ii_length _ _ _ _ Hi); lia|].
  apply (ii_tracked _ _ _ _ Hi). exists (q - length h0), e. split; [done|].
  split; [|lia]. rewrite <- (ii_id _ _ _ _ Hi _ _ He). f_equal. f_equal. lia.
Qed.

(** An ingest of an untracked message drops the parents from the tip list
    and puts the message at its back. *)
Lemma OnNewSolidMessage_tip_ids h0 log h s e n h' s' :
  ingest_inv h0 log h s →
  trackedMessages s !! GetMessageID e = None →
  OnNewSolidMessage e h s = (n, (h', s')) →
  tip_ids h' s' =
    filter (λ m, m ≠ GetParent1MessageID e ∧ m ≠ GetParent2MessageID e) (tip_ids h s)
    ++ [GetMessageID e].
Proof.
  intros Hi Hnew Hon.
  destruct (OnNewSolidMessage_new h0 log h s e Hi Hnew)
    as (h'' & s'' & Heq & Hlen & Htm & Htl & Hold & Hid & _ & Hlk).
  rewrite Heq in Hon. injection Hon as _ <- <-.
  unfold tip_ids. rewrite Htl, fmap_app. simpl. rewrite Hid. f_equal.
  rewrite remove_opt_filter.
  rewrite <- (fmap_filter_in (λ p, messageID (deref h p))
    (λ q, trackedMessages s !! GetParent1MessageID e ≠ Some q ∧
          trackedMessages s !! GetParent2MessageID e ≠ Some q)
    (λ m, m ≠ GetParent1MessageID e ∧ m ≠ GetParent2MessageID e) (tips s)).
  - apply list_fmap_ext. intros i q Hq. apply list_elem_of_lookup_2 in Hq.
    apply list_elem_of_filter in Hq as [_ Hq].
    apply (ingest_inv_tip _ _ _ _ _ Hi) in Hq as [Hq _]. by apply Hold.
  - intros q Hq. destruct (ingest_inv_tip _ _ _ _ _ Hi Hq) as [_ Hqt].
    assert (Hinj : ∀ x, trackedMessages s !! x = Some q ↔ x = messageID (deref h q)).
    { intros x. split; [|by intros ->].
      intros Hx. apply (ii_tracked _ _ _ _ Hi) in Hx as (i & ex & Hl & <- & ->).
      by rewrite (ii_id _ _ _ _ Hi _ _ Hl). }
    rewrite !Hinj. naive_solver.
Qed.

(** In solidification order the tips are the tracked messages that no other
    tracked message names as a parent, in the order of their ingest. *)
Lemma ingest_all_tip_ids l h0 s0 :
  solidification_order l →
  tip_ids (ingest_all l h0 (reset s0)).1 (ingest_all l h0 (reset s0)).2 =
  filter (λ m, ¬ parent_of_other (accepted l) m) (GetMessageID <$> accepted l).
Proof.
  induction l as [|e l IH] using rev_ind; [done|].
  intros [Hso Hord]%solidification_order_snoc. specialize (IH Hso).
  pose proof (ingest_all_inv l h0 s0) as Hi.
  rewrite ingest_all_snoc, accepted_snoc.
  destruct (ingest_all l h0 (reset s0)) as [h s]. simpl in *.
  case_decide as Hd.
  - rewrite OnNewSolidMessage_duplicate; [done|].
    apply not_eq_None_Some. rewrite (ingest_inv_untracked _ _ _ _ _ Hi). by intros ?.
  - pose proof Hd as Hnew. apply (ingest_inv_untracked _ _ _ _ _ Hi) in Hnew.
    destruct (OnNewSolidMessage e h s) as [n [h' s']] eqn:Hon. simpl.
    rewrite (OnNewSolidMessage_tip_ids _ _ _ _ _ _ _ _ Hi Hnew Hon), IH.
    rewrite fmap_app, filter_app, list_filter_filter. f_equal.
    + apply filter_ext_in. intros m Hm. unfold parent_of_other.
      rewrite Exists_app, Exists_cons, Exists_nil. unfold names_parent.
      assert (GetMessageID e ≠ m) by (intros Heq; apply Hd; by rewrite Heq).
      split.
      * intros [[H1 H2] H3] [?|[[_ [?|?]]|[]]]; congruence.
      * intros Hn. split; [split; intros Heq|intros Hex]; apply Hn;
          [right; left; split; [done|by left]
          |right; left; split; [done|by right]
          |by left].
    + simpl. rewrite filter_cons_True, filter_nil; [done|].
      destruct Hord as [Hk|Hf]; [by rewrite accepted_ids in Hd|].
      unfold parent_of_other. rewrite Exists_exists. intros (e' & He' & _ & Hp).
      rewrite Forall_forall in Hf. apply (Hf e'); [|done].
      apply elem_of_app in He' as [He'|He']; apply elem_of_app; [left|by right].
      by apply accepted_subseteq.
Qed.

(** C9 — in solidification order, after every ingest the tip list is
    exactly the tracked messages that are not a parent of another tracked
    message, in the order of their ingest; an ingest of a message that is
    not tracked yet removes its tracked parents from the tip list and puts
    the message at the back (a parent that is not tracked is not in the
    list), and an ingest of a tracked message changes nothing. *)
Theorem tips_are_the_unreferenced l e h0 s0 :
  solidification_order (l ++ [e]) →
  let σ := ingest_all l h0 (reset s0) in
  let σ' := (OnNewSolidMessage e σ.1 σ.2).2 in
  (∀ m, is_Some (trackedMessages σ'.2 !! m) ↔ m ∈ GetMessageID <$> accepted (l ++ [e])) ∧
  tip_ids σ'.1 σ'.2 =
    filter (λ m, ¬ parent_of_other (accepted (l ++ [e])) m)
           (GetMessageID <$> accepted (l ++ [e])) ∧
  (trackedMessages σ.2 !! GetMessageID e = None →
     tip_ids σ'.1 σ'.2 =
       filter (λ m, m ≠ GetParent1MessageID e ∧ m ≠ GetParent2MessageID e)
              (tip_ids σ.1 σ.2) ++ [GetMessageID e]) ∧
  (is_Some (trackedMessages σ.2 !! GetMessageID e) → σ' = σ).
Proof.
  intros Hso σ σ'.
  assert (Hσ' : σ' = ingest_all (l ++ [e]) h0 (reset s0)) by (by rewrite ingest_all_snoc).
  pose proof (ingest_all_inv l h0 s0) as Hi. fold σ in Hi.
  pose proof (ingest_all_inv (l ++ [e]) h0 s0) as Hi'. rewrite <- Hσ' in Hi'.
  split; [|split; [|split]].
  - intros m. rewrite <- not_eq_None_Some, (ingest_inv_untracked _ _ _ _ _ Hi').
    split; [apply dec_stable|by intros ? ?].
  - rewrite Hσ'. by apply ingest_all_tip_ids.
  - intros Hnew. subst σ'. destruct σ as [h s]. simpl in *.
    destruct (OnNewSolidMessage e h s) as [n [h' s']] eqn:Hon.
    by eapply OnNewSolidMessage_tip_ids.
  - intros Hdup. subst σ'. destruct σ as [h s]. simpl in *.
    by rewrite OnNewSolidMessage_duplicate.
Qed.

(** *** Ancestors and reference bitsets *)

Lemma accepted_parents_first l : solidification_order l → parents_first (accepted l).
Proof.
  induction l as [|e l IH] using rev_ind; [by intros _ i j ei ej ?|].
  intros [Hso Hord]%solidification_order_snoc. specialize (IH Hso).
  rewrite accepted_snoc. case_decide as Hd; [done|].
  destruct Hord as [Hk|Hf]; [by rewrite accepted_ids in Hd|].
  rewrite Forall_forall in Hf.
  intros i j ei ej Hi Hj Hp.
  apply lookup_app_Some in Hj as [Hj|[Hge Hj]].
  - apply lookup_app_Some in Hi as [Hi|[Hge Hi]]; [by eapply IH|].
    apply lookup_lt_Some in Hj. lia.
  - apply list_lookup_singleton_Some in Hj as [_ <-]. exfalso.
    apply (Hf ei); [|done]. apply list_elem_of_lookup_2 in Hi.
    apply elem_of_app in Hi as [Hi|Hi]; apply elem_of_app; [left|by right].
    by apply accepted_subseteq.
Qed.

Lemma ancestor_mono log log' x y :
  (∀ e, e ∈ log → e ∈ log') → ancestor log x y → ancestor log' x y.
Proof.
  intros Hsub. induction 1 as [x e He Hp|x y e Ha IH He Hp].
  - apply ancestor_parent; auto.
  - eapply ancestor_step; eauto.
Qed.

(** Both ends of an ancestry are settled by entries of the log. *)
Lemma ancestor_target log x y : ancestor log x y → ∃ e, e ∈ log ∧ GetMessageID e = y.
Proof. destruct 1; eauto. Qed.

(** Equal message IDs in a log without repetition mean the same entry. *)
Lemma log_lookup_inj log i j ei ej :
  NoDup (GetMessageID <$> log) → log !! i = Some ei → log !! j = Some ej →
  GetMessageID ei = GetMessageID ej → i = j ∧ ei = ej.
Proof.
  intros Hnd Hi Hj Heq.
  assert (i = j).
  { eapply (NoDup_lookup _ i j (GetMessageID ei) Hnd);
      rewrite list_lookup_fmap; [by rewrite Hi|by rewrite Hj, Heq]. }
  subst. split; [done|congruence].
Qed.

(** An ancestor was ingested before its descendant. *)
Lemma ancestor_lt log x y i j ei ej :
  NoDup (GetMessageID <$> log) → parents_first log → ancestor log x y →
  log !! j = Some ej → GetMessageID ej = x →
  log !! i = Some ei → GetMessageID ei = y → j < i.
Proof.
  intros Hnd Hpf Ha. revert i ei.
  induction Ha as [x e He Hp|x y e Ha IH He Hp]; intros i ei Hj Hx Hi Hy.
  - apply list_elem_of_lookup_1 in He as [k Hk].
    destruct (log_lookup_inj log i k ei e Hnd Hi Hk Hy) as [-> ->].
    subst x. by eapply Hpf.
  - apply list_elem_of_lookup_1 in He as [k Hk].
    destruct (log_lookup_inj log i k ei e Hnd Hi Hk Hy) as [-> ->].
    destruct (ancestor_target _ _ _ Ha) as (ey & [ky Hky]%list_elem_of_lookup_1 & Hey).
    assert (ky < k) by (eapply (Hpf k ky e ey); [done|done|by rewrite Hey]).
    specialize (IH ky ey Hj Hx Hky Hey). lia.
Qed.

(** The ancestors of a message are settled once it is ingested. *)
Lemma ancestor_old log e x y :
  NoDup (GetMessageID <$> (log ++ [e])) → parents_first (log ++ [e]) →
  ancestor (log ++ [e]) x y → y ∈ GetMessageID <$> log → ancestor log x y.
Proof.
  intros Hnd Hpf Ha. pose proof Hnd as Hnd'.
  rewrite fmap_app in Hnd'. apply NoDup_app in Hnd' as (_ & Hfresh & _).
  assert (Hin : ∀ e0, e0 ∈ log ++ [e] → GetMessageID e0 ∈ GetMessageID <$> log → e0 ∈ log).
  { intros e0 [?| ->%list_elem_of_singleton]%elem_of_app Hid; [done|].
    exfalso. apply (Hfresh _ Hid). simpl. by apply list_elem_of_singleton. }
  induction Ha as [x e0 He Hp|x y e0 Ha IH He Hp]; intros Hy.
  - apply ancestor_parent; auto.
  - pose proof (Hin _ He Hy) as He'.
    eapply ancestor_step; [apply IH|done|done].
    destruct (ancestor_target _ _ _ Ha) as (ey & [Hey| ->%list_elem_of_singleton]%elem_of_app & <-).
    + by apply list_elem_of_fmap_2.
    + exfalso. apply list_elem_of_lookup_1 in He' as [k Hk].
      pose proof (lookup_lt_Some _ _ _ Hk) as Hlt.
      assert (length log < k); [|lia].
      eapply (Hpf k (length log) e0 e); [by apply lookup_app_l_Some| |done].
      by rewrite list_lookup_middle.
Qed.

Lemma parent_refs_spec h0 log h s x j :
  ingest_inv h0 log h s → refs_inv h0 log h →
  j ∈ parent_refs h (trackedMessages s !! x) ↔
  ∃ a ea e', log !! a = Some ea ∧ GetMessageID ea = x ∧ log !! j = Some e' ∧
             (j = a ∨ ancestor log (GetMessageID e') x).
Proof.
  intros Hi Hr. destruct (trackedMessages s !! x) as [p|] eqn:Hp; simpl.
  - pose proof Hp as Hp'.
    apply (ii_tracked _ _ _ _ Hi) in Hp' as (a & ea & Ha & Hea & ->).
    rewrite (Hr a ea j Ha). rewrite Hea. split.
    + intros (e' & He' & Hj). by exists a, ea, e'.
    + intros (a' & ea' & e' & Ha' & Hea' & He' & Hj). exists e'. split; [done|].
      destruct Hj as [->|Hj]; [left|by right].
      assert (trackedMessages s !! x = Some (length h0 + a')) as Hp2.
      { apply (ii_tracked _ _ _ _ Hi). by exists a', ea'. }
      rewrite Hp in Hp2. injection Hp2. lia.
  - split; [set_solver|]. intros (a & ea & e' & Ha & Hea & _).
    assert (trackedMessages s !! x = Some (length h0 + a)) as Hp2.
    { apply (ii_tracked _ _ _ _ Hi). by exists a, ea. }
    congruence.
Qed.

Lemma refs_inv_step h0 log h s e n h' s' :
  ingest_inv h0 log h s → refs_inv h0 log h →
  trackedMessages s !! GetMessageID e = None →
  OnNewSolidMessage e h s = (n, (h', s')) →
  parents_first (log ++ [e]) →
  refs_inv h0 (log ++ [e]) h'.
Proof.
  intros Hi Hr Hnew Hon Hpf.
  pose proof (ii_nodup _ _ _ _ (ingest_inv_step _ _ _ _ _ _ _ _ Hi Hnew Hon)) as Hnd.
  destruct (OnNewSolidMessage_new h0 log h s e Hi Hnew)
    as (h'' & s'' & Heq & Hlen & Htm & Htl & Hold & Hid & Hrefs & Hlk).
  rewrite Heq in Hon. injection Hon as _ <- <-.
  pose proof (ii_length _ _ _ _ Hi) as HL.
  assert (Hsub : ∀ e0, e0 ∈ log → e0 ∈ log ++ [e]) by (intros; apply elem_of_app; by left).
  assert (Hmid : (log ++ [e]) !! length log = Some e) by (by rewrite list_lookup_middle).
  intros i ei j Hli. apply lookup_app_Some in Hli as [Hli|[Hge Hli]].
  - (* a message ingested before *)
    pose proof (lookup_lt_Some _ _ _ Hli) as Hlt.
    destruct (Hold (length h0 + i)) as [_ ->]; [lia|].
    rewrite (Hr i ei j Hli). split.
    + intros (e' & He' & Hj). exists e'. split; [by apply lookup_app_l_Some|].
      destruct Hj as [->|Hj]; [by left|right]. by eapply ancestor_mono.
    + intros (e' & He' & Hj).
      assert (Hei : GetMessageID ei ∈ GetMessageID <$> log).
      { apply list_elem_of_fmap_2. by eapply list_elem_of_lookup_2. }
      apply lookup_app_Some in He' as [He'|[Hge He']].
      * exists e'. split; [done|]. destruct Hj as [->|Hj]; [by left|right].
        by eapply ancestor_old.
      * apply list_lookup_singleton_Some in He' as [Hz <-]. exfalso.
        destruct Hj as [->|Hj]; [lia|].
        assert (length log < i); [|lia].
        eapply (ancestor_lt _ _ _ i (length log) ei e Hnd Hpf Hj); eauto.
        by apply lookup_app_l_Some.
  - (* the new message *)
    apply list_lookup_singleton_Some in Hli as [Hz <-].
    replace (length h0 + i) with (length h) by lia.
    replace i with (length log) by lia.
    rewrite Hrefs, !elem_of_union, elem_of_singleton.
    rewrite !(parent_refs_spec h0 log h s _ j Hi Hr). split.
    + intros [[->|Hj]|Hj].
      * exists e. split; [done|by left].
      * destruct Hj as (a & ea & e' & Ha & Hea & He' & Hj).
        exists e'. split; [by apply lookup_app_l_Some|]. right.
        assert (Hpa : ancestor (log ++ [e]) (GetParent1MessageID e) (GetMessageID e)).
        { apply ancestor_parent; [by eapply list_elem_of_lookup_2|by left]. }
        destruct Hj as [->|Hj].
        -- rewrite <- Hea in Hpa. replace e' with ea by congruence. done.
        -- eapply ancestor_step; [by eapply ancestor_mono|by eapply list_elem_of_lookup_2|by left].
      * destruct Hj as (a & ea & e' & Ha & Hea & He' & Hj).
        exists e'. split; [by apply lookup_app_l_Some|]. right.
        assert (Hpa : ancestor (log ++ [e]) (GetParent2MessageID e) (GetMessageID e)).
        { apply ancestor_parent; [by eapply list_elem_of_lookup_2|by right]. }
        destruct Hj as [->|Hj].
        -- rewrite <- Hea in Hpa. replace e' with ea by congruence. done.
        -- eapply ancestor_step; [by eapply ancestor_mono|by eapply list_elem_of_lookup_2|by right].
    + intros (e' & He' & Hj).
      destruct Hj as [->|Hj]; [by left; left|].
      assert (Hjlt : j < length log).
      { eapply (ancestor_lt _ _ _ (length log) j e e' Hnd Hpf Hj); eauto. }
      apply lookup_app_Some in He' as [He'|[Hge' He']]; [|lia].
      (* the last step of the ancestry is a parent that [e] names *)
      assert (Hlast : ∃ y, names_parent y e ∧
                (GetMessageID e' = y ∨ ancestor (log ++ [e]) (GetMessageID e') y)).
      { assert (He0 : ∀ e0, e0 ∈ log ++ [e] → GetMessageID e0 = GetMessageID e → e0 = e).
        { intros e0 [k Hk]%list_elem_of_lookup_1 Hid0.
          by destruct (log_lookup_inj _ _ _ _ _ Hnd Hk Hmid Hid0). }
        inversion Hj as [x e0 He0in Hp Hx Hid0|x y e0 Ha He0in Hp Hx Hid0]; subst x.
        - apply He0 in He0in as ->; [|done]. exists (GetMessageID e'). auto.
        - apply He0 in He0in as ->; [|done]. exists y. auto. }
      destruct Hlast as (y & Hy & Hjy).
      assert (Hya : ∃ a ea, log !! a = Some ea ∧ GetMessageID ea = y ∧
                (j = a ∨ ancestor log (GetMessageID e') y)).
      { destruct Hjy as [<-|Ha].
        - exists j, e'. auto.
        - destruct (ancestor_target _ _ _ Ha) as (ey & [ky Hky]%list_elem_of_lookup_1 & Hey).
          assert (ky < length log).
          { eapply (Hpf (length log) ky e ey); [done|done|by rewrite Hey]. }
          apply lookup_app_Some in Hky as [Hky|[Hge' _]]; [|lia].
          exists ky, ey. split; [done|]. split; [done|]. right.
          eapply ancestor_old; [done|done|done|].
          rewrite <- Hey. apply list_elem_of_fmap_2. by eapply list_elem_of_lookup_2. }
      destruct Hya as (a & ea & Ha & Hea & Hja).
      destruct Hy as [Hy|Hy]; [left; right|right]; rewrite Hy;
        exists a, ea, e'; auto.
Qed.

Lemma ingest_all_refs l h0 s0 :
  solidification_order l →
  refs_inv h0 (accepted l) (ingest_all l h0 (reset s0)).1.
Proof.
  induction l as [|e l IH] using rev_ind; [by intros _ i e j ?|].
  intros Hso. pose proof (accepted_parents_first _ Hso) as Hpf.
  apply solidification_order_snoc in Hso as [Hso _]. specialize (IH Hso).
  pose proof (ingest_all_inv l h0 s0) as Hi.
  rewrite ingest_all_snoc. rewrite accepted_snoc in *.
  destruct (ingest_all l h0 (reset s0)) as [h s]. simpl in *.
  case_decide as Hd.
  - rewrite OnNewSolidMessage_duplicate; [done|].
    apply not_eq_None_Some. rewrite (ingest_inv_untracked _ _ _ _ _ Hi). by intros ?.
  - apply (ingest_inv_untracked _ _ _ _ _ Hi) in Hd.
    destruct (OnNewSolidMessage e h s) as [n [h' s']] eqn:Hon.
    by eapply refs_inv_step.
Qed.

(** C3 — after every sequence of ingests in solidification order since the
    reset, the reference bitset of a tracked message [m] counts [m] and its
    tracked ancestors: for [A] the tracked ancestors of [m], each listed
    once, the count is [1 + length A]. *)
Theorem refs_count_ancestors l h0 s0 m p A :
  solidification_order l →
  let σ := ingest_all l h0 (reset s0) in
  trackedMessages σ.2 !! m = Some p →
  NoDup A →
  (∀ x, x ∈ A ↔ is_Some (trackedMessages σ.2 !! x) ∧ ancestor (accepted l) x m) →
  bitset.Count (refs (deref σ.1 p)) = (1 + Z.of_nat (length A))%Z.
Proof.
  intros Hso σ Hp HA HAspec.
  pose proof (ingest_all_inv l h0 s0) as Hi. fold σ in Hi.
  pose proof (ingest_all_refs l h0 s0 Hso) as Hr. fold σ in Hr.
  pose proof (accepted_parents_first l Hso) as Hpf.
  pose proof (ii_nodup _ _ _ _ Hi) as Hnd.
  destruct σ as [h s]. simpl in *.
  set (log := accepted l) in *.
  apply (ii_tracked _ _ _ _ Hi) in Hp as (i & ei & Hli & <- & ->).
  set (R := refs (deref h (length h0 + i))).
  set (ids := GetMessageID <$> log).
  assert (Hid : ∀ j e, log !! j = Some e → ids !!! j = GetMessageID e).
  { intros j e He. apply list_lookup_total_correct. subst ids.
    by rewrite list_lookup_fmap, He. }
  assert (HR : ∀ j, j ∈ elements R ↔
            ∃ e', log !! j = Some e' ∧
                  (j = i ∨ ancestor log (GetMessageID e') (GetMessageID ei))).
  { intros j. rewrite elem_of_elements. apply (Hr i ei j Hli). }
  assert (Htr : ∀ x, is_Some (trackedMessages s !! x) ↔ ∃ j e, log !! j = Some e ∧ GetMessageID e = x).
  { intros x. split.
    - intros [q (j & e & ? & ? & _)%(ii_tracked _ _ _ _ Hi)]. eauto.
    - intros (j & e & ? & ?). exists (length h0 + j).
      apply (ii_tracked _ _ _ _ Hi). eauto. }
  assert (Hperm : (λ j, ids !!! j) <$> elements R ≡ₚ GetMessageID ei :: A).
  { apply NoDup_Permutation.
    - apply NoDup_fmap_2_strong; [|apply NoDup_elements].
      intros j1 j2 (e1 & He1 & _)%HR (e2 & He2 & _)%HR.
      rewrite (Hid _ _ He1), (Hid _ _ He2). intros Heq.
      by destruct (log_lookup_inj _ _ _ _ _ Hnd He1 He2 Heq).
    - constructor; [|done]. intros [_ Ha]%HAspec.
      assert (i < i); [|lia]. by eapply (ancestor_lt log _ _ i i ei ei).
    - intros x. rewrite list_elem_of_fmap, elem_of_cons. split.
      + intros (j & -> & (e' & He' & Hj)%HR). rewrite (Hid _ _ He').
        destruct Hj as [->|Hj]; [left; congruence|right].
        apply HAspec. split; [|done]. apply Htr. eauto.
      + intros [->|[(j & e & He & <-)%Htr Ha]%HAspec].
        * exists i. split; [by rewrite (Hid _ _ Hli)|]. apply HR. eauto.
        * exists j. split; [by rewrite (Hid _ _ He)|]. apply HR. eauto. }
  unfold bitset.Count. fold R.
  replace (size R) with (length (elements R)) by done.
  apply Permutation_length in Hperm. rewrite length_fmap in Hperm.
  rewrite Hperm. simpl. lia.
Qed.

(** C1 — an ingest of a message that is already tracked leaves the store
    and the selector (tracked map, tip list, tracked count) as they are,
    but it returns 0, the zero value of the named result, which is below the
    current size of the tracked map. *)
Theorem duplicate_ingest_returns_zero msgMeta h s :
  is_Some (trackedMessages s !! GetMessageID msgMeta) →
  (OnNewSolidMessage msgMeta h s).2 = (h, s) ∧
  GetTrackedMessagesCount (OnNewSolidMessage msgMeta h s).2.2 = GetTrackedMessagesCount s ∧
  (OnNewSolidMessage msgMeta h s).1 = 0%Z ∧
  ((OnNewSolidMessage msgMeta h s).1 < GetTrackedMessagesCount s)%Z.
Proof.
  intros Hdup. rewrite (OnNewSolidMessage_duplicate _ _ _ Hdup). simpl.
  split; [done|]. split; [done|]. split; [done|].
  unfold GetTrackedMessagesCount.
  destruct Hdup as [p Hp].
  assert (size (trackedMessages s) ≠ 0); [|lia].
  apply map_size_non_empty_iff. intros He. by rewrite He, lookup_empty in Hp.
Qed.

(** ** The scenarios, run *)

(** Duplicate ingest: A, then A again. *)
Lemma duplicate_ingest_returns_zero_witness :
  let σ := ingest_all [meta "A" "" ""] [] (reset selector0) in
  is_Some (trackedMessages σ.2 !! "A") ∧
  GetTrackedMessagesCount σ.2 = 1%Z ∧
  (OnNewSolidMessage (meta "A" "" "") σ.1 σ.2).2 = σ ∧
  (OnNewSolidMessage (meta "A" "" "") σ.1 σ.2).1 = 0%Z.
Proof.
  intros σ.
  assert (Hs : is_Some (trackedMessages σ.2 !! GetMessageID (meta "A" "" ""))).
  { exists 0. by vm_compute. }
  destruct (duplicate_ingest_returns_zero (meta "A" "" "") σ.1 σ.2 Hs)
    as (H1 & _ & H3 & _).
  split; [done|]. split; [by vm_compute|]. split; [|done].
  rewrite H1. by destruct σ.
Defined.

Lemma scenario4_run_eq : scenario4_run = (inr ["T1"; "T2"], scenario4_run.2).
Proof. by vm_compute. Qed.

Lemma SelectTips_success_resets_witness :
  scenario4_run = (inr ["T1"; "T2"], (scenario4_run.2.1, scenario4_run.2.2)) ∧
  GetTrackedMessagesCount scenario4_run.2.2 = 0%Z ∧
  trackedMessages scenario4_run.2.2 = ∅ ∧ tips scenario4_run.2.2 = [].
Proof.
  assert (H : scenario4_run = (inr ["T1"; "T2"], (scenario4_run.2.1, scenario4_run.2.2))).
  { rewrite scenario4_run_eq at 1. by destruct (scenario4_run.2). }
  split; [done|].
  exact (SelectTips_success_resets (λ _, choice0) 0 scenario4.1 scenario4.2 _ _ _ H).
Defined.

Lemma SelectTips_output_witness :
  (0 ≤ randomTipsPerCheckpoint scenario4.2)%Z ∧
  scenario4_run = (inr ["T1"; "T2"], scenario4_run.2) ∧
  ["T1"; "T2"] ≠ [] ∧
  (∀ x, x ∈ ["T1"; "T2"] → x ∈ tip_ids scenario4.1 scenario4.2) ∧
  (1 ≤ Z.of_nat (length ["T1"; "T2"])
     ≤ maxHeaviestBranchTipsPerCheckpoint scenario4.2
       + randomTipsPerCheckpoint scenario4.2)%Z.
Proof.
  assert (Hr : (0 ≤ randomTipsPerCheckpoint scenario4.2)%Z) by (by vm_compute).
  split; [done|]. split; [apply scenario4_run_eq|].
  exact (SelectTips_output (λ _, choice0) 0 scenario4.1 scenario4.2 _ _ Hr scenario4_run_eq).
Defined.

Lemma SelectTips_output_NoDup_witness :
  scenario4_run = (inr ["T1"; "T2"], scenario4_run.2) ∧ NoDup ["T1"; "T2"].
Proof.
  split; [apply scenario4_run_eq|].
  exact (SelectTips_output_NoDup (λ _, choice0) 0 scenario4.1 scenario4.2 _ _ scenario4_run_eq).
Defined.

(** The second pass of the heaviest loop over scenario 4 chooses T2, whose
    contribution 2 is below the threshold 3 with one tip in the output:
    the loop breaks. *)
Lemma heaviest_pass_stops_or_picks_witness :
  ∃ w,
    (0 ≤ minHeaviestBranchUnreferencedMessagesThreshold scenario4.2 < 2 ^ 63)%Z ∧
    heaviest_at scenario4.2 0 1 (λ _, choice0) (select_start scenario4.1 scenario4.2) = Some w ∧
    selectTip choice0 (w_store w) (w_list w) = inr (4, 2%Z) ∧
    w_tips w = ["T1"] ∧
    (heaviest_body scenario4.2 0 choice0 w).1 = Break ∧
    w_tips (heaviest_body scenario4.2 0 choice0 w).2 = ["T1"].
Proof.
  destruct (heaviest_at scenario4.2 0 1 (λ _, choice0)
              (select_start scenario4.1 scenario4.2)) as [w|] eqn:Hw;
    [|by vm_compute in Hw].
  assert (Hw' : Some w = heaviest_at scenario4.2 0 1 (λ _, choice0)
                           (select_start scenario4.1 scenario4.2)) by done.
  vm_compute in Hw'. injection Hw' as Hw'.
  assert (Hthr : (0 ≤ minHeaviestBranchUnreferencedMessagesThreshold scenario4.2 < 2 ^ 63)%Z).
  { replace (minHeaviestBranchUnreferencedMessagesThreshold scenario4.2) with 3%Z
      by (by vm_compute). lia. }
  assert (Hs : selectTip (later 1 (λ _, choice0) 0) (w_store w) (w_list w) = inr (4, 2%Z))
    by (rewrite Hw'; by vm_compute).
  assert (Ht : w_tips w = ["T1"]) by (by rewrite Hw').
  destruct (heaviest_pass_stops_or_picks (λ _, choice0) 0 scenario4.1 scenario4.2 1 w 4 2
              Hthr Hw Hs) as (_ & _ & Hbreak & Hkeep & _).
  assert (Hstop : (0 < Z.of_nat (length (w_tips w)))%Z ∧
                  ((2 < minHeaviestBranchUnreferencedMessagesThreshold scenario4.2)%Z ∨
                   w_deadline w || ctxDone (later 1 (λ _, choice0) 0) = true)).
  { rewrite Ht. split; [by vm_compute|left; by vm_compute]. }
  exists w. split; [done|]. split; [done|]. split; [done|]. split; [done|].
  split; [by apply Hbreak|]. destruct (Hkeep Hstop) as (Hk & _).
  etrans; [exact Hk|exact Ht].
Defined.

(** Bit [j] of a tracked message tells whether the [j]-th message is one
    of its ancestors. *)
Lemma ancestor_bit l h0 s0 i j ei ej :
  solidification_order l →
  accepted l !! i = Some ei → accepted l !! j = Some ej → j ≠ i →
  ancestor (accepted l) (GetMessageID ej) (GetMessageID ei) ↔
  j ∈ refs (deref (ingest_all l h0 (reset s0)).1 (length h0 + i)).
Proof.
  intros Hso Hi Hj Hne. rewrite (ingest_all_refs l h0 s0 Hso i ei j Hi). split.
  - intros Ha. exists ej. auto.
  - intros (e' & He' & [?|Ha]); [done|]. congruence.
Qed.

Lemma ancestor_irrefl l x : solidification_order l → ¬ ancestor (accepted l) x x.
Proof.
  intros Hso Ha.
  destruct (ancestor_target _ _ _ Ha) as (e & [i Hi]%list_elem_of_lookup_1 & He).
  assert (i < i); [|lia].
  by eapply (ancestor_lt (accepted l) x x i i e e (accepted_NoDup l)
          (accepted_parents_first l Hso) Ha).
Qed.

Lemma tracked_accepted l h0 s0 x :
  is_Some (trackedMessages (ingest_all l h0 (reset s0)).2 !! x) ↔
  x ∈ GetMessageID <$> accepted l.
Proof.
  rewrite <- not_eq_None_Some, (ingest_inv_untracked _ _ _ _ _ (ingest_all_inv l h0 s0)).
  split; [apply dec_stable|by intros ? ?].
Qed.

(** In scenario 4 the tracked ancestors of T2 are C and A: count 3. *)
Lemma refs_count_ancestors_witness :
  solidification_order overlap ∧
  let σ := ingest_all overlap [] (reset selector0) in
  trackedMessages σ.2 !! "T2" = Some 4 ∧
  NoDup ["C"; "A"] ∧
  (∀ x, x ∈ ["C"; "A"] ↔
        is_Some (trackedMessages σ.2 !! x) ∧ ancestor (accepted overlap) x "T2") ∧
  bitset.Count (refs (deref σ.1 4)) = (1 + Z.of_nat (length ["C"; "A"]))%Z.
Proof.
  assert (Hso : solidification_order overlap).
  { apply (bool_decide_unpack _). by vm_compute. }
  split; [done|]. intros σ.
  assert (Hp : trackedMessages σ.2 !! "T2" = Some 4) by (by vm_compute).
  assert (Hnd : NoDup ["C"; "A"]).
  { apply (bool_decide_unpack _). by vm_compute. }
  assert (Hbit : ∀ j ej, accepted overlap !! j = Some ej → j ≠ 4 →
            ancestor (accepted overlap) (GetMessageID ej) "T2" ↔
            j ∈ refs (deref σ.1 4)).
  { intros j ej Hj Hne.
    exact (ancestor_bit overlap [] selector0 4 j (meta "T2" "C" "") ej Hso
             (eq_refl : accepted overlap !! 4 = Some (meta "T2" "C" "")) Hj Hne). }
  assert (Hacc : accepted overlap = overlap) by (by vm_compute).
  assert (HA : ∀ x, x ∈ ["C"; "A"] ↔
            is_Some (trackedMessages σ.2 !! x) ∧ ancestor (accepted overlap) x "T2").
  { intros x. subst σ. rewrite tracked_accepted. split.
    - intros [->|[->|[]%elem_of_nil]%elem_of_cons]%elem_of_cons.
      + split; [apply (bool_decide_unpack _); by vm_compute|].
        apply (Hbit 2 (meta "C" "A" "")); [by rewrite Hacc|lia|].
        apply (bool_decide_unpack _). by vm_compute.
      + split; [apply (bool_decide_unpack _); by vm_compute|].
        apply (Hbit 0 (meta "A" "" "")); [by rewrite Hacc|lia|].
        apply (bool_decide_unpack _). by vm_compute.
    - intros [Hx Ha]. apply list_elem_of_fmap in Hx as (e & -> & [j Hj]%list_elem_of_lookup_1).
      pose proof Hj as Hj'. rewrite Hacc in Hj'. unfold overlap in Hj'.
      destruct j as [|[|[|[|[|j]]]]]; cbn [lookup list_lookup] in Hj';
        [| | | | |discriminate Hj']; injection Hj' as <-;
        cbn [GetMessageID meta] in Ha |- *.
      + apply elem_of_cons; right; apply elem_of_cons; by left.
      + exfalso. apply (Hbit 1 (meta "B" "A" "")) in Ha; [|exact Hj|lia].
        revert Ha. apply (bool_decide_unpack _). by vm_compute.
      + apply elem_of_cons; by left.
      + exfalso. apply (Hbit 3 (meta "T1" "B" "")) in Ha; [|exact Hj|lia].
        revert Ha. apply (bool_decide_unpack _). by vm_compute.
      + exfalso. by apply (ancestor_irrefl overlap "T2" Hso). }
  split; [exact Hp|]. split; [exact Hnd|]. split; [exact HA|].
  exact (refs_count_ancestors overlap [] selector0 "T2" 4 ["C"; "A"] Hso Hp Hnd HA).
Defined.

(** The last ingest of scenario 4: T2, on C, takes the place of C among
    the tips. *)
Lemma tips_are_the_unreferenced_witness :
  solidification_order (take 4 overlap ++ [meta "T2" "C" ""]) ∧
  let σ := ingest_all (take 4 overlap) [] (reset selector0) in
  let σ' := (OnNewSolidMessage (meta "T2" "C" "") σ.1 σ.2).2 in
  tip_ids σ.1 σ.2 = ["C"; "T1"] ∧
  tip_ids σ'.1 σ'.2 = ["T1"; "T2"] ∧
  tip_ids σ'.1 σ'.2 =
    filter (λ m, ¬ parent_of_other (accepted (take 4 overlap ++ [meta "T2" "C" ""])) m)
           (GetMessageID <$> accepted (take 4 overlap ++ [meta "T2" "C" ""])) ∧
  (trackedMessages σ.2 !! "T2" = None →
     tip_ids σ'.1 σ'.2 = filter (λ m, m ≠ "C" ∧ m ≠ "") (tip_ids σ.1 σ.2) ++ ["T2"]).
Proof.
  assert (Hso : solidification_order (take 4 overlap ++ [meta "T2" "C" ""])).
  { apply (bool_decide_unpack _). by vm_compute. }
  split; [done|]. intros σ σ'.
  split; [by vm_compute|]. split; [by vm_compute|].
  destruct (tips_are_the_unreferenced (take 4 overlap) (meta "T2" "C" "") []
              selector0 Hso) as (_ & H2 & H3 & _).
  split; [exact H2|exact H3].
Defined.

(** * Further properties of the selector *)

(** ** [selectTip] and [randomTip] *)

(** An entry that ties the final best count is among the best tips. *)
Lemma scan_keeps h l b p :
  p ∈ best_tips b →
  best_count (foldl (selectTip_scan h) b l) = best_count b →
  p ∈ best_tips (foldl (selectTip_scan h) b l).
Proof.
  revert b. induction l as [|q l IH]; intros b Hp Hc; simpl in *; [done|].
  pose proof (scan_count_mono h l (selectTip_scan h b q)) as Hm.
  assert (Hq : (best_count b ≤ best_count (selectTip_scan h b q))%Z).
  { unfold selectTip_scan. repeat case_match; simpl; lia. }
  apply IH; [|lia].
  unfold selectTip_scan in *. fold (weight h q) in *.
  destruct (best_count b <? weight h q)%Z eqn:E1; simpl in *; [lia|].
  destruct (weight h q =? best_count b)%Z; simpl; [|done].
  apply elem_of_app. by left.
Qed.

Lemma scan_complete h l b p :
  p ∈ l → weight h p = best_count (foldl (selectTip_scan h) b l) →
  p ∈ best_tips (foldl (selectTip_scan h) b l).
Proof.
  revert b. induction l as [|q l IH]; intros b Hp Hw; [by apply elem_of_nil in Hp|].
  simpl in *. apply elem_of_cons in Hp as [->|Hp]; [|by apply IH].
  pose proof (scan_count_mono h l (selectTip_scan h b q)) as Hm.
  assert (Hq : (weight h q ≤ best_count (selectTip_scan h b q))%Z).
  { unfold selectTip_scan. fold (weight h q). repeat case_match; simpl; lia. }
  apply scan_keeps; [|lia].
  unfold selectTip_scan in *. fold (weight h q) in *.
  destruct (best_count b <? weight h q)%Z eqn:E1; simpl in *.
  - by apply list_elem_of_singleton.
  - destruct (weight h q =? best_count b)%Z eqn:E2; simpl in *; [|lia].
    apply elem_of_app. right. by apply list_elem_of_singleton.
Qed.

(** X1 — [selectTip] fails, with ErrNoTipsAvailable, exactly on the empty
    working list (its second error return is never reached); what it
    returns otherwise is an entry of the list together with the count of its
    bitset, and no entry of the list has a larger count. *)
Theorem selectTip_heaviest c h il :
  (selectTip c h il = inl ErrNoTipsAvailable ↔ msgs il = ∅) ∧
  (∀ t n, selectTip c h il = inr (t, n) →
     (∃ k, msgs il !! k = Some t) ∧
     n = bitset.Count (refs (deref h t)) ∧
     ∀ k p, msgs il !! k = Some p → (bitset.Count (refs (deref h p)) ≤ n)%Z).
Proof.
  split.
  - split; [apply selectTip_inl|].
    intros He. unfold selectTip. by rewrite (proj2 (Len_zero il) He).
  - intros t n Hs. by apply selectTip_inr in Hs.
Qed.

(** X2 — among the entries of the largest count, any one can be the tip
    that [selectTip] returns: the tie is broken by the random draw alone. *)
Theorem selectTip_any_tie h il k p :
  msgs il !! k = Some p →
  (∀ k' o, msgs il !! k' = Some o → (weight h o ≤ weight h p)%Z) →
  ∃ c, selectTip c h il = inr (p, weight h p).
Proof.
  intros Hp Hmax.
  set (b := foldl (selectTip_scan h) {| best_tips := []; best_count := 0 |}
                  (range [] (msgs il))).
  assert (Hin : p ∈ range [] (msgs il)) by (apply elem_of_range; eauto).
  assert (Hcount : best_count b = weight h p).
  { apply Z.le_antisymm; [|by apply scan_upper].
    destruct (range [] (msgs il)) as [|q l] eqn:Hr; [by apply elem_of_nil in Hin|].
    pose proof (scan_first h q l) as Hne. fold b in Hne.
    destruct (best_tips b) as [|t ts] eqn:Hb; [done|].
    assert (Ht : t ∈ best_tips b) by (rewrite Hb; apply elem_of_cons; by left).
    apply scan_tips in Ht as [[Ht|Ht] Hw]; [by apply elem_of_nil in Ht| |by intros ? ?%elem_of_nil].
    fold b in Hw. rewrite <- Hw. rewrite <- Hr in Ht. apply elem_of_range in Ht as [k' Hk'].
    by eapply Hmax. }
  assert (Hbest : p ∈ best_tips b) by (by apply scan_complete).
  apply list_elem_of_lookup_1 in Hbest as [j Hj].
  pose proof (lookup_lt_Some _ _ _ Hj) as Hlt.
  exists {| rangeSelect := []; rangeReference := []; randomDraw := Z.of_nat j;
            ctxDone := false |}.
  unfold selectTip. simpl. fold b.
  destruct (Len il =? 0)%Z eqn:E.
  { apply Len_zero in E. by rewrite E, lookup_empty in Hp. }
  destruct (best_tips b) as [|t0 ts] eqn:Hb; [simpl in Hlt; lia|].
  rewrite Hcount. do 2 f_equal.
  unfold RandomInsecure.
  replace (Z.of_nat (length (t0 :: ts)) - 1 + 1 - 0)%Z
    with (Z.of_nat (length (t0 :: ts))) by lia.
  rewrite Z.mod_small by lia. rewrite Z.add_0_r, Nat2Z.id.
  by apply nth_lookup_Some with (d := t0) in Hj.
Qed.

Lemma randomTip_loop_lookup (i : Z) (l : list nat) :
  (0 ≤ i)%Z →
  randomTip_loop i l =
  match l !! Z.to_nat i with Some p => inr p | None => inl ErrNoTipsAvailable end.
Proof.
  revert i. induction l as [|q l IH]; intros i Hi; simpl; [done|].
  destruct (i - 1 <? 0)%Z eqn:E.
  - apply Z.ltb_lt in E. by replace i with 0%Z by lia.
  - apply Z.ltb_ge in E. rewrite IH by lia.
    replace (Z.to_nat i) with (S (Z.to_nat (i - 1))) by lia. done.
Qed.

(** X3 — [randomTip] fails exactly on the empty working list; otherwise it
    returns the entry that the map iteration visits at the drawn position
    (a value between 0 and the size minus 1), so the error return after
    its loop is never reached. *)
Theorem randomTip_drawn_entry c il :
  (randomTip c il = inl ErrNoTipsAvailable ↔ msgs il = ∅) ∧
  (∀ p, randomTip c il = inr p ↔
        msgs il ≠ ∅ ∧
        range (rangeSelect c) (msgs il)
          !! Z.to_nat (RandomInsecure (randomDraw c) 0 (Len il - 1)) = Some p) ∧
  (msgs il ≠ ∅ → (0 ≤ RandomInsecure (randomDraw c) 0 (Len il - 1) < Len il)%Z).
Proof.
  assert (Hr : msgs il ≠ ∅ →
               (0 ≤ RandomInsecure (randomDraw c) 0 (Len il - 1) < Len il)%Z).
  { intros Hne%map_size_non_empty_iff. unfold RandomInsecure, Len.
    pose proof (Z.mod_pos_bound (randomDraw c) (Z.of_nat (size (msgs il)) - 1 + 1 - 0)).
    lia. }
  unfold randomTip. destruct (Len il =? 0)%Z eqn:E.
  - apply Len_zero in E. split; [done|]. split; [|done].
    intros p. split; [done|]. by intros [? _].
  - assert (Hne : msgs il ≠ ∅) by (intros He%Len_zero; congruence).
    specialize (Hr Hne).
    rewrite randomTip_loop_lookup by lia.
    assert (Hlt : Z.to_nat (RandomInsecure (randomDraw c) 0 (Len il - 1))
                  < length (range (rangeSelect c) (msgs il))).
    { rewrite length_range. unfold Len in *. lia. }
    apply lookup_lt_is_Some_2 in Hlt as [q Hq]. rewrite Hq.
    split; [done|]. split; [|done].
    intros p. split; [by intros [= ->]|]. by intros [_ [= ->]].
Qed.

(** ** The tip list of the selector *)

Lemma removeTip_any it h s :
  retipped h (removeTip it h s).1 ∧
  trackedMessages (removeTip it h s).2 = trackedMessages s ∧
  same_config s (removeTip it h s).2.
Proof.
  destruct it as [p|]; simpl; [|by split; [apply retipped_refl|]].
  destruct (tip (deref h p)); simpl; [|by split; [apply retipped_refl|]].
  split; [apply retipped_set_tip|done].
Qed.

(** X4 — [removeTip] of nil, or of a record that holds no handle, changes
    nothing; otherwise it takes the handle out of the tip list and clears
    it in the record, so that removing the same record again changes
    nothing (as when both parents of a message are the same). *)
Theorem removeTip_twice it h s :
  (it = None → removeTip it h s = (h, s)) ∧
  (∀ p, it = Some p → tip (deref h p) = None → removeTip it h s = (h, s)) ∧
  (∀ p e, it = Some p → tip (deref h p) = Some e →
     tips (removeTip it h s).2 = filter (λ e', e' ≠ e) (tips s) ∧
     tip (deref (removeTip it h s).1 p) = None) ∧
  removeTip it (removeTip it h s).1 (removeTip it h s).2 = removeTip it h s.
Proof.
  assert (Hclear : ∀ p e, tip (deref h p) = Some e →
            tip (deref (<[ p := set_tip None (deref h p) ]> h) p) = None).
  { intros p e He. rewrite deref_insert. case_decide as E; [done|].
    assert (Hd : deref h p = inhabitant).
    { unfold deref. rewrite list_lookup_total_alt, lookup_ge_None_2; [done|].
      destruct (decide (p < length h)); [|lia]. exfalso. by apply E. }
    by rewrite Hd in He. }
  split; [by intros ->|]. split; [by intros p -> Hp; simpl; rewrite Hp|]. split.
  - intros p e -> He. simpl. rewrite He. simpl. split; [done|]. by eapply Hclear.
  - destruct it as [p|]; simpl; [|done].
    destruct (tip (deref h p)) as [e|] eqn:He; simpl; [|by rewrite He].
    by rewrite (Hclear p e He).
Qed.

(** X5 — [referenceTip] of an entry [t] of a working list that is keyed by
    message ID takes exactly the key of [t] out of the list (one entry
    less), clears in every remaining entry the bits of [t], which leaves
    it disjoint from [t], and changes neither the record of [t] nor any
    record outside the list. *)
Theorem referenceTip_frame c t h il k :
  keyed h (msgs il) → msgs il !! k = Some t →
  msgs (referenceTip c t h il).2 = delete k (msgs il) ∧
  size (msgs (referenceTip c t h il).2) = pred (size (msgs il)) ∧
  deref (referenceTip c t h il).1 t = deref h t ∧
  (∀ p, (∀ k', msgs (referenceTip c t h il).2 !! k' ≠ Some p) →
        deref (referenceTip c t h il).1 p = deref h p) ∧
  (∀ k' o, msgs (referenceTip c t h il).2 !! k' = Some o →
        refs (deref (referenceTip c t h il).1 o) = refs (deref h o) ∖ refs (deref h t) ∧
        refs (deref (referenceTip c t h il).1 o) ## refs (deref (referenceTip c t h il).1 t)).
Proof.
  intros Hk Ht.
  assert (Hid : messageID (deref h t) = k) by (by apply Hk).
  assert (Hother : ∀ p, (∀ k', msgs (referenceTip c t h il).2 !! k' ≠ Some p) →
            deref (referenceTip c t h il).1 p = deref h p).
  { intros p Hp. apply difference_fold_other. rewrite elem_of_range.
    intros [k' Hk']. by apply (Hp k'). }
  assert (Htt : deref (referenceTip c t h il).1 t = deref h t).
  { apply Hother. intros k'. by apply referenceTip_removed. }
  split; [by rewrite referenceTip_list, Hid|].
  split; [rewrite referenceTip_list, Hid; by rewrite map_size_delete, Ht|].
  split; [done|]. split; [done|].
  intros k' o Ho. rewrite Htt, (referenceTip_refs c t h il k' o Hk Ho).
  split; [done|]. set_solver.
Qed.

(** ** Ingest *)

(** X6 — an ingest of a message that is not tracked yet returns the new
    number of tracked messages, one more than before; the message is
    tracked from then on, by a new record at the back of the tip list whose
    bitset is the bit at the old number of tracked messages together with
    the bitsets of the parents that are tracked. *)
Theorem OnNewSolidMessage_untracked msgMeta h s :
  trackedMessages s !! GetMessageID msgMeta = None →
  (OnNewSolidMessage msgMeta h s).1 = (GetTrackedMessagesCount s + 1)%Z ∧
  GetTrackedMessagesCount (OnNewSolidMessage msgMeta h s).2.2 =
    (OnNewSolidMessage msgMeta h s).1 ∧
  trackedMessages (OnNewSolidMessage msgMeta h s).2.2 =
    <[ GetMessageID msgMeta := length h ]> (trackedMessages s) ∧
  last (tips (OnNewSolidMessage msgMeta h s).2.2) = Some (length h) ∧
  messageID (deref (OnNewSolidMessage msgMeta h s).2.1 (length h)) = GetMessageID msgMeta ∧
  refs (deref (OnNewSolidMessage msgMeta h s).2.1 (length h)) =
    {[ size (trackedMessages s) ]}
    ∪ parent_refs h (trackedMessages s !! GetParent1MessageID msgMeta)
    ∪ parent_refs h (trackedMessages s !! GetParent2MessageID msgMeta).
Proof.
  intros Hnew. unfold OnNewSolidMessage. rewrite Hnew.
  set (P1 := trackedMessages s !! GetParent1MessageID msgMeta).
  set (P2 := trackedMessages s !! GetParent2MessageID msgMeta).
  set (r2 := match P2 with Some p => _ | None => _ end).
  set (rec := {| messageID := GetMessageID msgMeta; tip := None; refs := r2 |}).
  set (s1 := with_state s _ (tips s)).
  assert (Hr2 : r2 = {[ size (trackedMessages s) ]} ∪ parent_refs h P1 ∪ parent_refs h P2).
  { subst r2. unfold bitset.InPlaceUnion, bitset.Set_, bitset.New.
    destruct P1, P2; simpl; set_solver. }
  destruct (removeTip_any P1 (h ++ [rec]) s1) as (Hrt1 & Htm1 & _).
  destruct (removeTip P1 (h ++ [rec]) s1) as [h2 s2]. simpl in Hrt1, Htm1.
  destruct (removeTip_any P2 h2 s2) as (Hrt2 & Htm2 & _).
  destruct (removeTip P2 h2 s2) as [h3 s3]. simpl in Hrt2, Htm2.
  pose proof (retipped_trans _ _ _ Hrt1 Hrt2) as Hrt.
  pose proof (retipped_trans _ _ _ Hrt (retipped_set_tip h3 (length h) (Some (length h))))
    as Hrt'.
  cbn [list_.PushBack fst snd]. unfold GetTrackedMessagesCount. simpl.
  rewrite Htm2, Htm1. subst s1. simpl. rewrite map_size_insert_None by done.
  split; [lia|]. split; [done|]. split; [done|]. split; [apply last_snoc|].
  rewrite (retipped_id _ _ Hrt'), (retipped_refs _ _ Hrt'), deref_alloc. done.
Qed.

Lemma OnNewSolidMessage_config msgMeta h s :
  same_config s (OnNewSolidMessage msgMeta h s).2.2.
Proof.
  unfold OnNewSolidMessage. destruct (trackedMessages s !! GetMessageID msgMeta); [done|].
  set (P1 := trackedMessages s !! GetParent1MessageID msgMeta).
  set (P2 := trackedMessages s !! GetParent2MessageID msgMeta).
  set (h1 := h ++ _). set (s1 := with_state s _ (tips s)).
  destruct (removeTip_any P1 h1 s1) as (_ & _ & Hc1).
  destruct (removeTip P1 h1 s1) as [h2 s2].
  destruct (removeTip_any P2 h2 s2) as (_ & _ & Hc2).
  destruct (removeTip P2 h2 s2) as [h3 s3]. simpl in *.
  unfold same_config in *. simpl in *. naive_solver congruence.
Qed.

Lemma ingest_all_config l h s : same_config s (ingest_all l h s).2.
Proof.
  induction l as [|e l IH] using rev_ind; [done|].
  rewrite ingest_all_snoc.
  pose proof (OnNewSolidMessage_config e (ingest_all l h s).1 (ingest_all l h s).2) as Hc.
  unfold same_config in *. naive_solver congruence.
Qed.

(** X7 — after any sequence of ingests since a reset, in whatever order,
    the messages tracked are exactly those delivered, and
    [GetTrackedMessagesCount] is the number of distinct message IDs
    delivered; the configuration is the one the selector was built with. *)
Theorem tracked_count_distinct l h0 s0 :
  let σ := ingest_all l h0 (reset s0) in
  (∀ m, is_Some (trackedMessages σ.2 !! m) ↔ m ∈ GetMessageID <$> l) ∧
  GetTrackedMessagesCount σ.2 =
    Z.of_nat (size (list_to_set (GetMessageID <$> l) : gset string)) ∧
  same_config s0 σ.2.
Proof.
  intros σ. pose proof (ingest_all_inv l h0 s0) as Hi. fold σ in Hi.
  split; [|split].
  - intros m. subst σ. by rewrite tracked_accepted, accepted_ids.
  - unfold GetTrackedMessagesCount. f_equal.
    rewrite (ii_size _ _ _ _ Hi), <- (length_fmap GetMessageID).
    rewrite <- (size_list_to_set (C := gset string)) by apply (ii_nodup _ _ _ _ Hi).
    f_equal. apply set_eq. intros m. rewrite !elem_of_list_to_set. apply accepted_ids.
  - apply (ingest_all_config l h0 (reset s0)).
Qed.

Lemma ingest_inv_ids h0 log h s :
  ingest_inv h0 log h s →
  (λ p, messageID (deref h p)) <$> seq (length h0) (length log) = GetMessageID <$> log.
Proof.
  intros Hi. apply list_eq. intros i. rewrite !list_lookup_fmap.
  destruct (log !! i) as [e|] eqn:He.
  - rewrite lookup_seq_lt by (by eapply lookup_lt_Some). simpl.
    by rewrite (ii_id _ _ _ _ Hi _ _ He).
  - apply lookup_ge_None in He. rewrite (proj2 (lookup_ge_None _ _)); [done|].
    by rewrite length_seq.
Qed.

Lemma ingest_all_last_tip l h0 s0 :
  last (tips (ingest_all l h0 (reset s0)).2) =
  last (seq (length h0) (length (accepted l))).
Proof.
  induction l as [|e l IH] using rev_ind; [done|].
  pose proof (ingest_all_inv l h0 s0) as Hi.
  rewrite ingest_all_snoc, accepted_snoc.
  destruct (ingest_all l h0 (reset s0)) as [h s]. simpl in *.
  case_decide as Hd.
  - rewrite OnNewSolidMessage_duplicate; [done|].
    apply not_eq_None_Some. rewrite (ingest_inv_untracked _ _ _ _ _ Hi). by intros ?.
  - apply (ingest_inv_untracked _ _ _ _ _ Hi) in Hd.
    destruct (OnNewSolidMessage_new h0 _ h s e Hi Hd)
      as (h' & s' & Heq & _ & _ & Htl & _).
    rewrite Heq. simpl. rewrite Htl, length_app, seq_app, !last_snoc. simpl.
    by rewrite last_snoc, (ii_length _ _ _ _ Hi).
Qed.

(** X8 — after any sequence of ingests since a reset, in whatever order,
    the tips are tracked messages, each once, in the order of their
    ingest, and the message added last is the last tip (so the tip list of
    a selector that tracks a message is never empty). *)
Theorem tips_in_ingest_order l h0 s0 :
  let σ := ingest_all l h0 (reset s0) in
  tip_ids σ.1 σ.2 `sublist_of` (GetMessageID <$> accepted l) ∧
  NoDup (tip_ids σ.1 σ.2) ∧
  last (tip_ids σ.1 σ.2) = last (GetMessageID <$> accepted l) ∧
  (tips σ.2 = [] ↔ l = []).
Proof.
  intros σ. pose proof (ingest_all_inv l h0 s0) as Hi. fold σ in Hi.
  pose proof (ingest_all_last_tip l h0 s0) as Hlast. fold σ in Hlast.
  assert (Hsub : tip_ids σ.1 σ.2 `sublist_of` (GetMessageID <$> accepted l)).
  { rewrite <- (ingest_inv_ids _ _ _ _ Hi). unfold tip_ids.
    apply fmap_sublist, (ii_tips _ _ _ _ Hi). }
  assert (Hl : last (tip_ids σ.1 σ.2) = last (GetMessageID <$> accepted l)).
  { unfold tip_ids. rewrite <- (ingest_inv_ids _ _ _ _ Hi), !fmap_last. by rewrite Hlast. }
  split; [done|]. split; [|split; [done|]].
  - apply (sublist_NoDup _ _ (ii_nodup _ _ _ _ Hi) Hsub).
  - split.
    + intros Ht. unfold tip_ids in Hl. rewrite Ht in Hl. simpl in Hl.
      destruct l as [|e l] using rev_ind; [done|]. exfalso.
      rewrite fmap_last in Hl. symmetry in Hl. apply fmap_None in Hl.
      rewrite accepted_snoc in Hl. case_decide as Hd.
      * destruct (accepted l) as [|x k] eqn:Hk using rev_ind; [by apply elem_of_nil in Hd|].
        by rewrite last_snoc in Hl.
      * by rewrite last_snoc in Hl.
    + by intros ->.
Qed.



(** ** Selections *)

Lemma accepted_nil l : accepted l = [] ↔ l = [].
Proof.
  split; [|by intros ->].
  destruct l as [|e l] using rev_ind; [done|].
  rewrite accepted_snoc. case_decide as Hd.
  - intros He. rewrite He in Hd. by apply elem_of_nil in Hd.
  - intros He. by apply app_eq_nil in He as [_ ?].
Qed.

Lemma heaviest_loop_prefix s m n ρ w :
  w_tips w `prefix_of` w_tips (heaviest_loop s m n ρ w).
Proof.
  revert ρ w. induction n as [|n IH]; intros ρ w; simpl; [done|].
  destruct (heaviest_body_cases s m (ρ 0) w) as [[d ->]|(t & c & d & _ & _ & ->)]; [done|].
  etrans; [|apply IH]. simpl. by apply prefix_app_r.
Qed.

Lemma random_loop_prefix n ρ w : w_tips w `prefix_of` w_tips (random_loop n ρ w).
Proof.
  revert ρ w. induction n as [|n IH]; intros ρ w; simpl; [done|].
  destruct (random_body_cases (ρ 0) w) as [->|(t & _ & ->)]; [done|].
  etrans; [|apply IH]. simpl. by apply prefix_app_r.
Qed.

(** X10 — a selector that has been given at least one message since its
    reset, in whatever order, has a tip to offer: with
    maxHeaviestBranchTipsPerCheckpoint at least 1 and a non-negative
    minRequiredTips, [SelectTips] succeeds whatever the threshold, the
    deadline and the random draws. *)
Theorem SelectTips_after_ingest_succeeds l h0 s0 ρ m :
  l ≠ [] →
  (1 ≤ maxHeaviestBranchTipsPerCheckpoint s0)%Z →
  (0 ≤ m)%Z →
  let σ := ingest_all l h0 (reset s0) in
  ∃ out, (SelectTips ρ m σ.1 σ.2).1 = inr out ∧ out ≠ [].
Proof.
  intros Hl Hmax Hm σ.
  pose proof (ingest_all_last_tip l h0 s0) as Hlast. fold σ in Hlast.
  pose proof (ingest_all_config l h0 (reset s0)) as (_ & Hc & _). fold σ in Hc.
  simpl in Hc.
  assert (Htips : tips σ.2 ≠ []).
  { intros Ht. rewrite Ht in Hlast. simpl in Hlast.
    assert (0 < length (accepted l)).
    { destruct (accepted l) eqn:Hk; [|simpl; lia].
      by apply (proj1 (accepted_nil l)) in Hk. }
    rewrite last_lookup, length_seq, lookup_seq_lt in Hlast by lia. done. }
  destruct (SelectTips_cases ρ m σ.1 σ.2) as [[Ht _]|[(_ & Hw & _)|(_ & Hw & ->)]];
    [done| |].
  - exfalso. apply (select_heaviest_nil ρ m σ.1 σ.2 Htips) in Hw
      as [?|(t & n & _ & ? & _)]; lia.
  - eexists. split; [done|].
    pose proof (random_loop_prefix (Z.to_nat (randomTipsPerCheckpoint σ.2))
      (later (Z.to_nat (maxHeaviestBranchTipsPerCheckpoint σ.2)) ρ)
      (select_heaviest ρ m σ.1 σ.2)) as [k Hk].
    fold (select_random ρ m σ.1 σ.2) in Hk. rewrite Hk.
    destruct (w_tips (select_heaviest ρ m σ.1 σ.2)); done.
Qed.

(** X11 — the first message ID that a successful [SelectTips] returns is
    that of a heaviest tip: a tip of the selector whose bitset count, when
    the call starts, is the largest among the tips in the snapshot. *)
Theorem SelectTips_first_is_heaviest ρ m h s out σ' :
  SelectTips ρ m h s = (inr out, σ') →
  ∃ x rest p,
    out = x :: rest ∧
    p ∈ tips s ∧ messageID (deref h p) = x ∧
    ∀ k o, msgs (tipsToList h s) !! k = Some o → (weight h o ≤ weight h p)%Z.
Proof.
  destruct (SelectTips_cases ρ m h s) as [[Ht ->]|[(Ht & Hw & ->)|(Ht & Hw & ->)]];
    [done|done|].
  intros [= <- _].
  pose proof (random_loop_prefix (Z.to_nat (randomTipsPerCheckpoint s))
    (later (Z.to_nat (maxHeaviestBranchTipsPerCheckpoint s)) ρ)
    (select_heaviest ρ m h s)) as [k2 Hk2].
  fold (select_random ρ m h s) in Hk2. rewrite Hk2. clear Hk2.
  unfold select_heaviest in *.
  destruct (Z.to_nat (maxHeaviestBranchTipsPerCheckpoint s)) as [|n]; [done|].
  simpl in *.
  destruct (selectTip (ρ 0) h (tipsToList h s)) as [e|[t c]] eqn:Hs.
  { rewrite (heaviest_body_inl s m (ρ 0) (select_start h s) e Hs) in *. done. }
  rewrite (heaviest_body_inr s m (ρ 0) (select_start h s) t c Hs) in *.
  destruct (early_stop _ _ _ _ _); [done|].
  pose proof (heaviest_loop_prefix s m n (later 1 ρ)
    (pick (ρ 0) t (w_deadline (select_start h s) || ctxDone (ρ 0)) (select_start h s)))
    as [k1 Hk1].
  rewrite Hk1. cbn [pick w_tips select_start w_store w_list app].
  destruct (selectTip_inr _ _ _ _ _ Hs) as ([k Hk] & -> & Hmax).
  apply tipsToList_lookup in Hk as [Hin Hid].
  eexists _, _, t. split; [done|]. split; [done|]. split; [|done].
  by rewrite (thinned_id _ _ (referenceTip_store (ρ 0) t h (tipsToList h s))).
Qed.

Lemma heaviest_loop_deadline_now s m n ρ w :
  w_deadline w || ctxDone (ρ 0) = true →
  length (w_tips (heaviest_loop s m n ρ w))
  ≤ length (w_tips w) `max` Z.to_nat (m + 1).
Proof.
  revert ρ w. induction n as [|n IH]; intros ρ w Hd; simpl; [lia|].
  destruct (selectTip (ρ 0) (w_store w) (w_list w)) as [e|[t c]] eqn:Hs.
  { rewrite (heaviest_body_inl s m (ρ 0) w e Hs). simpl. lia. }
  rewrite (heaviest_body_inr s m (ρ 0) w t c Hs).
  destruct (early_stop _ _ _ _ _) eqn:He; [simpl; lia|].
  unfold early_stop in He. rewrite Hd, orb_true_r, andb_true_r in He.
  apply Z.ltb_ge in He.
  etrans; [apply IH; simpl; by rewrite Hd|].
  simpl. rewrite length_app. simpl. lia.
Qed.

Lemma heaviest_loop_deadline s m n i ρ w :
  ctxDone (ρ i) = true →
  length (w_tips (heaviest_loop s m n ρ w))
  ≤ (length (w_tips w) + i) `max` Z.to_nat (m + 1).
Proof.
  revert n ρ w. induction i as [|i IH]; intros n ρ w Hd.
  - rewrite Nat.add_0_r. apply heaviest_loop_deadline_now. by rewrite Hd, orb_true_r.
  - destruct n as [|n]; simpl; [lia|].
    destruct (heaviest_body_cases s m (ρ 0) w) as [[d ->]|(t & c & d & _ & _ & ->)];
      [simpl; lia|].
    etrans; [apply (IH n (later 1 ρ)); exact Hd|].
    simpl. rewrite length_app. simpl. lia.
Qed.

(** X12 — once the deadline is found exceeded at the poll of pass [i]
    (counted from 0), the heaviest loop appends no tip beyond the larger of
    [i] and minRequiredTips + 1: with a deadline that has passed from the
    start and minRequiredTips 0, at most one heaviest tip is picked. *)
Theorem heaviest_picks_after_deadline ρ m h s i :
  ctxDone (ρ i) = true →
  length (w_tips (select_heaviest ρ m h s)) ≤ i `max` Z.to_nat (m + 1).
Proof.
  intros Hd. unfold select_heaviest.
  by apply (heaviest_loop_deadline s m _ i ρ (select_start h s)).
Qed.

Lemma heaviest_counts_threshold s m n ρ w i c :
  heaviest_counts s m n ρ w !! i = Some c →
  (m < Z.of_nat (length (w_tips w) + i))%Z →
  (uint (minHeaviestBranchUnreferencedMessagesThreshold s) ≤ c)%Z.
Proof.
  revert ρ w i. induction n as [|n IH]; intros ρ w i; simpl; [done|].
  destruct (selectTip (ρ 0) (w_store w) (w_list w)) as [e|[t c0]] eqn:Hs.
  { by rewrite (heaviest_body_inl s m (ρ 0) w e Hs). }
  rewrite (heaviest_body_inr s m (ρ 0) w t c0 Hs).
  destruct (early_stop _ _ _ _ _) eqn:He; [done|].
  destruct i as [|i]; simpl.
  - intros [= <-] Hm. unfold early_stop in He.
    apply andb_false_iff in He as [He|He]; [apply Z.ltb_ge in He; lia|].
    apply orb_false_iff in He as [He _]. by apply Z.ltb_ge in He.
  - intros Hc Hm. apply (IH _ _ _ Hc). simpl. rewrite length_app. simpl. lia.
Qed.

(** X13 — every heaviest tip picked when the output already held more
    than minRequiredTips tips contributes at least the threshold (as an
    unsigned value): the [i]-th contribution, counted from 0, with
    [i > minRequiredTips], is not below it. *)
Theorem late_picks_reach_threshold ρ m h s i c :
  heaviest_contributions ρ m h s !! i = Some c →
  (m < Z.of_nat i)%Z →
  (uint (minHeaviestBranchUnreferencedMessagesThreshold s) ≤ c)%Z.
Proof.
  intros Hc Hm. by apply (heaviest_counts_threshold s m _ ρ (select_start h s) i c Hc).
Qed.

(** X14 — a selection that follows a successful one, with no ingest in
    between, finds no tip: it fails with ErrNoTipsAvailable and changes
    nothing. *)
Theorem SelectTips_twice_fails ρ m h s out h' s' ρ' m' :
  SelectTips ρ m h s = (inr out, (h', s')) →
  SelectTips ρ' m' h' s' = (inl ErrNoTipsAvailable, (h', s')).
Proof.
  destruct (SelectTips_cases ρ m h s) as [[Ht ->]|[(Ht & Hw & ->)|(Ht & Hw & ->)]];
    [done|done|].
  intros [= _ <- <-].
  by destruct (SelectTips_cases ρ' m' (w_store (select_random ρ m h s)) (reset s))
    as [[_ ->]|[(Ht' & _)|(Ht' & _)]].
Qed.

(** *** How many tips are picked *)

Lemma randomTip_inl c il e : randomTip c il = inl e → msgs il = ∅.
Proof.
  unfold randomTip. destruct (Len il =? 0)%Z eqn:E; [by rewrite <- Len_zero|].
  intros Hr. exfalso. apply Z.eqb_neq in E. unfold Len in *.
  assert (Hb : (0 ≤ RandomInsecure (randomDraw c) 0 (Z.of_nat (size (msgs il)) - 1)
               < Z.of_nat (size (msgs il)))%Z).
  { unfold RandomInsecure.
    pose proof (Z.mod_pos_bound (randomDraw c) (Z.of_nat (size (msgs il)) - 1 + 1 - 0)).
    lia. }
  rewrite randomTip_loop_lookup in Hr by lia.
  destruct (lookup_lt_is_Some_2 (range (rangeSelect c) (msgs il))
    (Z.to_nat (RandomInsecure (randomDraw c) 0 (Z.of_nat (size (msgs il)) - 1))))
    as [q Hq]; [rewrite length_range; lia|].
  by rewrite Hq in Hr.
Qed.

Lemma pick_size h0 W0 c t d w k :
  work_inv h0 W0 w → msgs (w_list w) !! k = Some t →
  S (size (msgs (w_list (pick c t d w)))) = size (msgs (w_list w)).
Proof.
  intros Hi Ht. cbn [pick w_list]. rewrite referenceTip_list.
  rewrite (thinned_id _ _ (wi_thinned _ _ _ Hi)), (wi_keyed _ _ _ Hi _ _ Ht).
  rewrite map_size_delete, Ht.
  assert (size (msgs (w_list w)) ≠ 0); [|lia].
  apply map_size_non_empty_iff. intros He. by rewrite He, lookup_empty in Ht.
Qed.

Lemma heaviest_loop_size h0 W0 s m n ρ w :
  work_inv h0 W0 w →
  size (msgs (w_list (heaviest_loop s m n ρ w))) + length (w_tips (heaviest_loop s m n ρ w))
  = size (msgs (w_list w)) + length (w_tips w).
Proof.
  revert ρ w. induction n as [|n IH]; intros ρ w Hi; simpl; [done|].
  destruct (heaviest_body_cases s m (ρ 0) w) as [[d ->]|(t & c & d & Hs & _ & ->)]; [done|].
  apply selectTip_inr in Hs as ([k Hk] & _).
  rewrite IH by (by apply work_inv_pick; eauto).
  rewrite <- (pick_size h0 W0 (ρ 0) t d w k Hi Hk).
  cbn [pick w_tips]. rewrite length_app. simpl. lia.
Qed.

Lemma random_loop_count h0 W0 n ρ w :
  work_inv h0 W0 w →
  length (w_tips (random_loop n ρ w)) = length (w_tips w) + n `min` size (msgs (w_list w)).
Proof.
  revert ρ w. induction n as [|n IH]; intros ρ w Hi; simpl; [lia|].
  unfold random_body. destruct (randomTip (ρ 0) (w_list w)) as [e|t] eqn:Hr.
  - apply randomTip_inl in Hr. rewrite Hr, map_size_empty. lia.
  - apply randomTip_inr in Hr as [k Hk].
    pose proof (pick_size h0 W0 (ρ 0) t (w_deadline w) w k Hi Hk) as Hsz.
    change (length (w_tips (random_loop n (later 1 ρ) (pick (ρ 0) t (w_deadline w) w)))
            = length (w_tips w) + S n `min` size (msgs (w_list w))).
    rewrite IH by (by apply work_inv_pick; eauto).
    rewrite <- Hsz. set (sz := size _).
    cbn [pick w_tips]. rewrite length_app. simpl length. lia.
Qed.

(** X15 — random padding is complete: a successful [SelectTips] returns the
    heaviest tips followed by randomTipsPerCheckpoint further tips, or by
    all the tips that the heaviest loop left if those are fewer. *)
Theorem SelectTips_output_length ρ m h s out σ' :
  SelectTips ρ m h s = (inr out, σ') →
  let k := length (w_tips (select_heaviest ρ m h s)) in
  w_tips (select_heaviest ρ m h s) `prefix_of` out ∧
  1 ≤ k ≤ size (msgs (tipsToList h s)) ∧
  length out =
    k + Z.to_nat (randomTipsPerCheckpoint s) `min` (size (msgs (tipsToList h s)) - k).
Proof.
  destruct (SelectTips_cases ρ m h s) as [[Ht ->]|[(Ht & Hw & ->)|(Ht & Hw & ->)]];
    [done|done|].
  intros [= <- _] k.
  pose proof (select_heaviest_inv ρ m h s) as Hi.
  pose proof (heaviest_loop_size _ _ s m (Z.to_nat (maxHeaviestBranchTipsPerCheckpoint s))
    ρ (select_start h s) (work_inv_start h s)) as Hsz.
  fold (select_heaviest ρ m h s) in Hsz.
  cbn [select_start w_list w_tips length] in Hsz. fold k in Hsz.
  split; [apply random_loop_prefix|]. split.
  - subst k. destruct (w_tips (select_heaviest ρ m h s)); [done|simpl in *; lia].
  - unfold select_random. rewrite (random_loop_count _ _ _ _ _ Hi). fold k. lia.
Qed.

Lemma heaviest_loop_full h0 W0 s m n ρ w :
  work_inv h0 W0 w →
  (uint (minHeaviestBranchUnreferencedMessagesThreshold s) = 0%Z ∧
   w_deadline w = false ∧ (∀ i, ctxDone (ρ i) = false)) ∨
  (Z.of_nat (length (w_tips w) + n) ≤ m + 1)%Z →
  length (w_tips (heaviest_loop s m n ρ w)) =
  length (w_tips w) + n `min` size (msgs (w_list w)).
Proof.
  revert ρ w. induction n as [|n IH]; intros ρ w Hi Hreg; simpl; [lia|].
  destruct (selectTip (ρ 0) (w_store w) (w_list w)) as [e|[t c]] eqn:Hs.
  { rewrite (heaviest_body_inl s m (ρ 0) w e Hs). simpl.
    apply selectTip_inl in Hs. rewrite Hs, map_size_empty. lia. }
  rewrite (heaviest_body_inr s m (ρ 0) w t c Hs).
  destruct (selectTip_inr _ _ _ _ _ Hs) as ([k Hk] & Hc & _).
  assert (He : early_stop s m w c (w_deadline w || ctxDone (ρ 0)) = false).
  { unfold early_stop. destruct Hreg as [(Hthr & Hd & Hnd)|Hlen].
    - rewrite Hthr, Hd, Hnd. simpl. pose proof (weight_nonneg (w_store w) t).
      rewrite (proj2 (Z.ltb_ge c 0)) by lia. apply andb_false_r.
    - rewrite (proj2 (Z.ltb_ge m _)) by lia. done. }
  rewrite He.
  pose proof (pick_size h0 W0 (ρ 0) t (w_deadline w || ctxDone (ρ 0)) w k Hi Hk) as Hsz.
  rewrite IH.
  - rewrite <- Hsz. set (sz := size _).
    cbn [pick w_tips]. rewrite length_app. simpl length. lia.
  - by apply work_inv_pick; eauto.
  - destruct Hreg as [(Hthr & Hd & Hnd)|Hlen]; [left|right].
    + split; [done|]. split; [simpl; by rewrite Hd, Hnd|]. intros i. apply Hnd.
    + cbn [pick w_tips]. rewrite length_app. simpl. lia.
Qed.

(** X16 — the heaviest loop takes as many tips as it may, the smaller of
    maxHeaviestBranchTipsPerCheckpoint and the number of tips in the
    snapshot, when nothing can stop it early: with threshold 0 and a
    deadline that is never exceeded, or with minRequiredTips at least
    maxHeaviestBranchTipsPerCheckpoint - 1. *)
Theorem heaviest_loop_exhausts ρ m h s :
  (uint (minHeaviestBranchUnreferencedMessagesThreshold s) = 0%Z ∧
   (∀ i, ctxDone (ρ i) = false)) ∨
  (maxHeaviestBranchTipsPerCheckpoint s - 1 ≤ m)%Z →
  length (w_tips (select_heaviest ρ m h s)) =
  Z.to_nat (maxHeaviestBranchTipsPerCheckpoint s) `min` size (msgs (tipsToList h s)).
Proof.
  intros Hreg. unfold select_heaviest.
  destruct (decide (maxHeaviestBranchTipsPerCheckpoint s ≤ 0)%Z) as [Hneg|Hpos].
  { by replace (Z.to_nat (maxHeaviestBranchTipsPerCheckpoint s)) with 0 by lia. }
  rewrite (heaviest_loop_full h (msgs (tipsToList h s))); [done|apply work_inv_start|].
  destruct Hreg as [[Hthr Hnd]|Hm]; [by left|right]. simpl. lia.
Qed.

(** *** What the contributions add up to *)

Lemma heaviest_picked_ids h0 W0 s m n ρ w :
  work_inv h0 W0 w →
  w_tips (heaviest_loop s m n ρ w) =
  w_tips w ++ ((λ p, messageID (deref h0 p)) <$> heaviest_picked s m n ρ w).
Proof.
  revert ρ w. induction n as [|n IH]; intros ρ w Hi; simpl; [by rewrite app_nil_r|].
  destruct (heaviest_body_cases s m (ρ 0) w) as [[d ->]|(t & c & d & Hs & _ & ->)];
    [by rewrite app_nil_r|].
  rewrite Hs. apply selectTip_inr in Hs as (Hk & _).
  pose proof (work_inv_pick h0 W0 (ρ 0) t d w Hi Hk) as Hi'.
  rewrite (IH _ _ Hi'). cbn [pick w_tips]. rewrite <- app_assoc. simpl.
  by rewrite (thinned_id _ _ (wi_thinned _ _ _ Hi')).
Qed.

Lemma heaviest_counts_total h0 W0 s m n ρ w (U : gset nat) :
  work_inv h0 W0 w →
  (∀ k o, msgs (w_list w) !! k = Some o →
          refs (deref (w_store w) o) = refs (deref h0 o) ∖ U) →
  (Z.of_nat (size U) + total (heaviest_counts s m n ρ w))%Z =
  Z.of_nat (size (U ∪ ⋃ ((λ p, refs (deref h0 p)) <$> heaviest_picked s m n ρ w))).
Proof.
  revert ρ w U. induction n as [|n IH]; intros ρ w U Hi HU; simpl.
  { rewrite (right_id_L ∅ (∪)). unfold total. simpl. lia. }
  destruct (heaviest_body_cases s m (ρ 0) w) as [[d ->]|(t & c & d & Hs & _ & ->)].
  { simpl. rewrite (right_id_L ∅ (∪)). unfold total. simpl. lia. }
  rewrite Hs. destruct (selectTip_inr _ _ _ _ _ Hs) as ([k Hk] & -> & _).
  pose proof (work_inv_pick h0 W0 (ρ 0) t d w Hi (ex_intro _ k Hk)) as Hi'.
  assert (Hkeyed : keyed (w_store w) (msgs (w_list w))).
  { eapply keyed_thinned; [apply (wi_thinned _ _ _ Hi)|apply (wi_keyed _ _ _ Hi)]. }
  assert (HU' : ∀ k' o, msgs (w_list (pick (ρ 0) t d w)) !! k' = Some o →
            refs (deref (w_store (pick (ρ 0) t d w)) o) =
            refs (deref h0 o) ∖ (U ∪ refs (deref h0 t))).
  { intros k' o Ho. cbn [pick w_list w_store] in *.
    rewrite (referenceTip_refs _ _ _ _ k' o Hkeyed Ho).
    rewrite (HU k t Hk). rewrite referenceTip_list in Ho.
    apply lookup_delete_Some in Ho as [_ Ho]. rewrite (HU k' o Ho). set_solver. }
  specialize (IH (later 1 ρ) _ _ Hi' HU').
  rewrite fmap_cons.
  change (total (?a :: ?b)) with (a + total b)%Z.
  change (⋃ (?x :: ?l)) with (x ∪ ⋃ l).
  unfold weight, bitset.Count. rewrite (HU k t Hk).
  rewrite (assoc_L (∪)), <- IH.
  rewrite (size_union_alt (C := gset nat) U (refs (deref h0 t))). lia.
Qed.

(** X17 — the contributions of the heaviest picks count every referenced
    message once: their sum is the number of bits set in the union of the
    bitsets that the picked tips had when the call started; the picked
    tips are those whose IDs the heaviest loop put in the output. *)
Theorem heaviest_contributions_total ρ m h s :
  (λ p, messageID (deref h p)) <$> heaviest_picks ρ m h s =
    w_tips (select_heaviest ρ m h s) ∧
  total (heaviest_contributions ρ m h s) =
    Z.of_nat (size (⋃ ((λ p, refs (deref h p)) <$> heaviest_picks ρ m h s))).
Proof.
  split.
  - unfold select_heaviest, heaviest_picks.
    by rewrite (heaviest_picked_ids h (msgs (tipsToList h s)) s m _ ρ (select_start h s)
                  (work_inv_start h s)).
  - pose proof (heaviest_counts_total h (msgs (tipsToList h s)) s m
      (Z.to_nat (maxHeaviestBranchTipsPerCheckpoint s)) ρ (select_start h s) ∅
      (work_inv_start h s)) as Ht.
    rewrite size_empty, (left_id_L ∅ (∪)) in Ht. simpl in Ht.
    unfold heaviest_contributions, heaviest_picks. rewrite <- Ht; [done|].
    intros k o _. set_solver.
Qed.

(** ** The further properties on the scenarios *)

Lemma scenario4_tips : tips scenario4.2 = [3; 4].
Proof. by vm_compute. Qed.

(** In scenario 4 both tips have count 3: T2 can be the one selected. *)
Lemma selectTip_any_tie_witness :
  msgs (tipsToList scenario4.1 scenario4.2) !! "T2" = Some 4 ∧
  (∀ k' o, msgs (tipsToList scenario4.1 scenario4.2) !! k' = Some o →
           (weight scenario4.1 o ≤ weight scenario4.1 4)%Z) ∧
  ∃ c, selectTip c scenario4.1 (tipsToList scenario4.1 scenario4.2)
       = inr (4, weight scenario4.1 4).
Proof.
  assert (H1 : msgs (tipsToList scenario4.1 scenario4.2) !! "T2" = Some 4)
    by (by vm_compute).
  assert (H2 : ∀ k' o, msgs (tipsToList scenario4.1 scenario4.2) !! k' = Some o →
                (weight scenario4.1 o ≤ weight scenario4.1 4)%Z).
  { intros k' o [Ho _]%tipsToList_lookup. rewrite scenario4_tips in Ho.
    apply elem_of_cons in Ho as [->|Ho]; [by vm_compute|].
    apply list_elem_of_singleton in Ho as ->. done. }
  split; [done|]. split; [done|].
  exact (selectTip_any_tie scenario4.1 (tipsToList scenario4.1 scenario4.2) "T2" 4 H1 H2).
Defined.

(** Referencing T1 in the snapshot of scenario 4 leaves T2 alone in the
    list, without the bit of A, and T1 as it was. *)
Lemma referenceTip_frame_witness :
  let il := tipsToList scenario4.1 scenario4.2 in
  keyed scenario4.1 (msgs il) ∧
  msgs il !! "T1" = Some 3 ∧
  msgs (referenceTip choice0 3 scenario4.1 il).2 = delete "T1" (msgs il) ∧
  size (msgs (referenceTip choice0 3 scenario4.1 il).2) = pred (size (msgs il)) ∧
  deref (referenceTip choice0 3 scenario4.1 il).1 3 = deref scenario4.1 3.
Proof.
  intros il.
  assert (H1 : keyed scenario4.1 (msgs il)) by apply tipsToList_keyed.
  assert (H2 : msgs il !! "T1" = Some 3) by (by vm_compute).
  destruct (referenceTip_frame choice0 3 scenario4.1 il "T1" H1 H2) as (E1 & E2 & E3 & _).
  split; [exact H1|]. split; [exact H2|]. split; [exact E1|]. split; [exact E2|exact E3].
Defined.

(** The first ingest into a fresh selector returns 1. *)
Lemma OnNewSolidMessage_untracked_witness :
  trackedMessages (reset selector0) !! GetMessageID (meta "A" "" "") = None ∧
  (OnNewSolidMessage (meta "A" "" "") [] (reset selector0)).1
    = (GetTrackedMessagesCount (reset selector0) + 1)%Z ∧
  last (tips (OnNewSolidMessage (meta "A" "" "") [] (reset selector0)).2.2) = Some 0.
Proof.
  assert (H : trackedMessages (reset selector0) !! GetMessageID (meta "A" "" "") = None)
    by done.
  destruct (OnNewSolidMessage_untracked (meta "A" "" "") [] (reset selector0) H)
    as (E1 & _ & _ & E4 & _).
  split; [done|]. split; [exact E1|exact E4].
Defined.


Lemma SelectTips_after_ingest_succeeds_witness :
  overlap ≠ [] ∧
  (1 ≤ maxHeaviestBranchTipsPerCheckpoint selector0)%Z ∧
  (0 ≤ 0)%Z ∧
  let σ := ingest_all overlap [] (reset selector0) in
  ∃ out, (SelectTips (λ _, choice0) 0 σ.1 σ.2).1 = inr out ∧ out ≠ [].
Proof.
  assert (H1 : overlap ≠ []) by done.
  assert (H2 : (1 ≤ maxHeaviestBranchTipsPerCheckpoint selector0)%Z) by (simpl; lia).
  assert (H3 : (0 ≤ 0)%Z) by lia.
  split; [done|]. split; [done|]. split; [done|].
  exact (SelectTips_after_ingest_succeeds overlap [] selector0 (λ _, choice0) 0 H1 H2 H3).
Defined.

Lemma SelectTips_first_is_heaviest_witness :
  scenario4_run = (inr ["T1"; "T2"], scenario4_run.2) ∧
  ∃ x rest p,
    ["T1"; "T2"] = x :: rest ∧
    p ∈ tips scenario4.2 ∧ messageID (deref scenario4.1 p) = x ∧
    ∀ k o, msgs (tipsToList scenario4.1 scenario4.2) !! k = Some o →
           (weight scenario4.1 o ≤ weight scenario4.1 p)%Z.
Proof.
  split; [apply scenario4_run_eq|].
  exact (SelectTips_first_is_heaviest (λ _, choice0) 0 scenario4.1 scenario4.2 _ _
           scenario4_run_eq).
Defined.

(** With the deadline exceeded from the first poll and minRequiredTips 0,
    one heaviest tip at most is picked. *)
Lemma heaviest_picks_after_deadline_witness :
  ctxDone ((λ _ : nat, choice_late) 0) = true ∧
  length (w_tips (select_heaviest (λ _, choice_late) 0 scenario4.1 scenario4.2))
    ≤ 0 `max` Z.to_nat (0 + 1).
Proof.
  split; [done|].
  exact (heaviest_picks_after_deadline (λ _, choice_late) 0 scenario4.1 scenario4.2 0
           eq_refl).
Defined.

(** With threshold 1 the second pick of the overlap scenario, T2 with
    contribution 2, is made. *)
Lemma late_picks_reach_threshold_witness :
  heaviest_contributions (λ _, choice0) 0 scenario1.1 scenario1.2 !! 1 = Some 2%Z ∧
  (0 < Z.of_nat 1)%Z ∧
  (uint (minHeaviestBranchUnreferencedMessagesThreshold scenario1.2) ≤ 2)%Z.
Proof.
  assert (H1 : heaviest_contributions (λ _, choice0) 0 scenario1.1 scenario1.2 !! 1
               = Some 2%Z) by (by vm_compute).
  assert (H2 : (0 < Z.of_nat 1)%Z) by lia.
  split; [done|]. split; [done|].
  exact (late_picks_reach_threshold (λ _, choice0) 0 scenario1.1 scenario1.2 1 2 H1 H2).
Defined.

Lemma SelectTips_twice_fails_witness :
  scenario4_run = (inr ["T1"; "T2"], (scenario4_run.2.1, scenario4_run.2.2)) ∧
  SelectTips (λ _, choice_late) 5 scenario4_run.2.1 scenario4_run.2.2
    = (inl ErrNoTipsAvailable, (scenario4_run.2.1, scenario4_run.2.2)).
Proof.
  assert (H : scenario4_run = (inr ["T1"; "T2"], (scenario4_run.2.1, scenario4_run.2.2))).
  { rewrite scenario4_run_eq at 1. by destruct (scenario4_run.2). }
  split; [done|].
  exact (SelectTips_twice_fails (λ _, choice0) 0 scenario4.1 scenario4.2 _ _ _
           (λ _, choice_late) 5 H).
Defined.

(** Scenario 4: one heaviest tip, then one random tip out of the one left. *)
Lemma SelectTips_output_length_witness :
  scenario4_run = (inr ["T1"; "T2"], scenario4_run.2) ∧
  let k := length (w_tips (select_heaviest (λ _, choice0) 0 scenario4.1 scenario4.2)) in
  w_tips (select_heaviest (λ _, choice0) 0 scenario4.1 scenario4.2)
    `prefix_of` ["T1"; "T2"] ∧
  1 ≤ k ≤ size (msgs (tipsToList scenario4.1 scenario4.2)) ∧
  length ["T1"; "T2"] =
    k + Z.to_nat (randomTipsPerCheckpoint scenario4.2)
        `min` (size (msgs (tipsToList scenario4.1 scenario4.2)) - k).
Proof.
  split; [apply scenario4_run_eq|].
  exact (SelectTips_output_length (λ _, choice0) 0 scenario4.1 scenario4.2 _ _
           scenario4_run_eq).
Defined.

(** With minRequiredTips 1 both tips of scenario 4 are heaviest picks. *)
Lemma heaviest_loop_exhausts_witness :
  ((uint (minHeaviestBranchUnreferencedMessagesThreshold scenario4.2) = 0%Z ∧
    (∀ i, ctxDone ((λ _ : nat, choice0) i) = false)) ∨
   (maxHeaviestBranchTipsPerCheckpoint scenario4.2 - 1 ≤ 1)%Z) ∧
  length (w_tips (select_heaviest (λ _, choice0) 1 scenario4.1 scenario4.2)) =
  Z.to_nat (maxHeaviestBranchTipsPerCheckpoint scenario4.2)
    `min` size (msgs (tipsToList scenario4.1 scenario4.2)).
Proof.
  assert (H : (uint (minHeaviestBranchUnreferencedMessagesThreshold scenario4.2) = 0%Z ∧
               (∀ i, ctxDone ((λ _ : nat, choice0) i) = false)) ∨
              (maxHeaviestBranchTipsPerCheckpoint scenario4.2 - 1 ≤ 1)%Z).
  { right. replace (maxHeaviestBranchTipsPerCheckpoint scenario4.2) with 2%Z
      by (by vm_compute). lia. }
  split; [exact H|].
  exact (heaviest_loop_exhausts (λ _, choice0) 1 scenario4.1 scenario4.2 H).
Defined.
